(** * pyloess: a shallow embedding of [loess] (src/pyloess/loess.py)

    The function is a single batched numpy pipeline: sort the data by x,
    select for every evaluation point its k nearest observations, weight
    them with the tricubic kernel, solve the weighted normal equations of
    all points in one batched inversion, and evaluate the local polynomials.

    Arrays are lists (two- and three-dimensional arrays are nested lists,
    rows first), and each batched pass is a [map] over the leading axis.
    float64 entries are idealised as exact rationals ([Qc], canonical
    fractions, so that equality is Leibniz equality) extended with the one
    non-finite value the pipeline can create, [NaN]; rounding is not
    modelled.  Python exceptions are the [Raise] branch of an error monad.
    The shapes that [squeeze] and broadcasting produce are modelled
    explicitly, since the behaviour for degree 0 depends on them. *)

From Stdlib Require Import QArith Qcanon Qcabs Qround ZArith List Lia Lqa Bool Arith.
From Stdlib Require Import Permutation Sorted.
Import ListNotations.
Open Scope Qc_scope.
Open Scope list_scope.

(** ** Exceptions and the error monad *)

Inductive exn : Type :=
| IndexError    (* index out of bounds *)
| ValueError    (* zero-size reduction, shapes that do not broadcast *)
| LinAlgError.  (* numpy.linalg.LinAlgError: Singular matrix *)

Inductive result (A : Type) : Type :=
| Ok (a : A)
| Raise (e : exn).
Arguments Ok {A} a.
Arguments Raise {A} e.

Definition bind {A B : Type} (c : result A) (k : A -> result B) : result B :=
  match c with
  | Ok a => k a
  | Raise e => Raise e
  end.

Notation "x <- c ;; k" := (bind c (fun x => k))
  (at level 61, c at next level, right associativity).

Fixpoint mapM {A B : Type} (f : A -> result B) (l : list A) : result (list B) :=
  match l with
  | [] => Ok []
  | a :: t => b <- f a ;; bs <- mapM f t ;; Ok (b :: bs)
  end.

(** ** Float values: a rational or NaN

    The only division of the pipeline is by the row maximum of non-negative
    distances, so a zero divisor forces a zero dividend: 0/0 = NaN is the
    only non-finite value that can appear (no infinities). *)

Inductive val : Type :=
| Num (q : Qc)
| NaN.

Definition vadd (a b : val) : val :=
  match a, b with
  | Num p, Num q => Num (p + q)
  | _, _ => NaN
  end.

Definition vsub (a b : val) : val :=
  match a, b with
  | Num p, Num q => Num (p - q)
  | _, _ => NaN
  end.

Definition vmul (a b : val) : val :=
  match a, b with
  | Num p, Num q => Num (p * q)
  | _, _ => NaN
  end.

(** [a ** n] for a non-negative integer exponent; IEEE gives [nan ** 0 = 1]. *)
Definition vpow (a : val) (n : nat) : val :=
  match n, a with
  | O, _ => Num 1
  | _, Num q => Num (q ^ n)
  | _, NaN => NaN
  end.

Definition Qceqb (a b : Qc) : bool := Qeq_bool a b.
Definition Qcleb (a b : Qc) : bool := Qle_bool a b.

(** Division of two finite floats of which the divisor is the maximum of a
    row of non-negative numbers holding the dividend. *)
Definition vdiv (a b : Qc) : val :=
  if Qceqb b 0 then NaN else Num (a / b).

(** [np.clip(v, lo, hi)]; NaN passes through. *)
Definition clip (v : val) (lo hi : Qc) : val :=
  match v with
  | Num q => if Qcleb q lo then Num lo else if Qcleb hi q then Num hi else Num q
  | NaN => NaN
  end.

(** ** Array primitives *)

(** [np.argsort], in the stable order the specification fixes: indices in
    ascending key order, equal keys in index order. *)
Fixpoint insert_idx (key : nat -> Qc) (a : nat) (l : list nat) : list nat :=
  match l with
  | [] => [a]
  | b :: t => if Qcleb (key a) (key b) then a :: l else b :: insert_idx key a t
  end.

Definition argsort (l : list Qc) : list nat :=
  fold_right (insert_idx (fun i => nth i l 0)) [] (seq 0 (length l)).

(** Integer-array indexing [a[idx]]. *)
Definition take {A : Type} (a : list A) (idx : list nat) : result (list A) :=
  mapM (fun i => match nth_error a i with
                 | Some v => Ok v
                 | None => Raise IndexError
                 end) idx.

(** Number of entries kept by the slice [[:k]] on an axis of length [n]
    (a negative stop counts from the end). *)
Definition slice_stop (k : Z) (n : nat) : nat :=
  if (k <? 0)%Z then Z.to_nat (Z.max 0 (Z.of_nat n + k))
  else Z.to_nat (Z.min k (Z.of_nat n)).

Definition slice_to {A : Type} (k : Z) (l : list A) : list A :=
  firstn (slice_stop k (length l)) l.

Definition Qcmax (a b : Qc) : Qc := if Qcleb a b then b else a.

(** [np.max] of one row. *)
Definition Qcmaxl (l : list Qc) : Qc :=
  match l with
  | [] => 0
  | a :: t => fold_left Qcmax t a
  end.

(** Integer-array indexing whose indices are known to be in range (they
    come from [argsort] of the indexed axis, see [argsort_lt]). *)
Definition gather (a : list Qc) (idx : list nat) : list Qc :=
  map (fun i => nth i a 0) idx.

Fixpoint map2 {A B C : Type} (f : A -> B -> C) (l : list A) (l' : list B) : list C :=
  match l, l' with
  | a :: t, b :: t' => f a b :: map2 f t t'
  | _, _ => []
  end.

(** [np.max(a, axis=1, keepdims=True)] on an array with [ncols] columns:
    a maximum over an empty axis has no identity. *)
Definition amax_axis1 (ncols : nat) (a : list (list Qc)) : result (list Qc) :=
  if (ncols =? 0)%nat then Raise ValueError else Ok (map Qcmaxl a).

(** ** Dense matrices, generic in the entry type *)

Section Matrix.
Variable T : Type.
Variable zero : T.
Variables add mul : T -> T -> T.

Definition vec_add (u v : list T) : list T := map2 add u v.
Definition vec_mul (u v : list T) : list T := map2 mul u v.
Definition vec_scale (c : T) (v : list T) : list T := map (mul c) v.

(** Row vector times matrix, [sum_l r[l] * B[l, :]]; [p] is the number of
    columns of [B]. *)
Definition vecmat (p : nat) (r : list T) (B : list (list T)) : list T :=
  fold_right (fun cb acc => vec_add (vec_scale (fst cb) (snd cb)) acc)
             (repeat zero p) (combine r B).

(** [A @ B] where [B] has [p] columns. *)
Definition matmul (p : nat) (A B : list (list T)) : list (list T) :=
  map (fun r => vecmat p r B) A.

(** Transpose of a matrix with [p] columns. *)
Definition transpose (p : nat) (A : list (list T)) : list (list T) :=
  map (fun j => map (fun r => nth j r zero) A) (seq 0 p).

(** [A * w[None, :]]: every row multiplied entry by entry with [w]. *)
Definition scale_cols (A : list (list T)) (w : list T) : list (list T) :=
  map (fun r => vec_mul r w) A.

Definition vsum (l : list T) : T := fold_right add zero l.
End Matrix.

Arguments vec_add {T} add u v.
Arguments vec_mul {T} mul u v.
Arguments vec_scale {T} mul c v.
Arguments vecmat {T} zero add mul p r B.
Arguments matmul {T} zero add mul p A B.
Arguments transpose {T} zero p A.
Arguments scale_cols {T} mul A w.
Arguments vsum {T} zero add l.

Definition qmatmul := matmul 0 Qcplus Qcmult.
Definition qvecmat := vecmat 0 Qcplus Qcmult.
Definition vmatmul := matmul (Num 0) vadd vmul.
Definition lift (A : list (list Qc)) : list (list val) := map (map Num) A.

(** ** numpy.linalg.inv

    The inverse is an external collaborator.  In exact arithmetic it is
    Gauss-Jordan elimination on the rows of [A | I]: an exactly singular
    matrix raises LinAlgError, and a matrix holding NaN comes back all NaN
    without an error (LAPACK sees no zero pivot). *)

Definition arow : Type := (list Qc * list Qc)%type.

Definition row_scale (c : Qc) (r : arow) : arow :=
  (vec_scale Qcmult c (fst r), vec_scale Qcmult c (snd r)).

Definition row_sub (r s : arow) : arow :=
  (map2 Qcminus (fst r) (fst s), map2 Qcminus (snd r) (snd s)).

Definition eliminate (c : nat) (piv r : arow) : arow :=
  row_sub r (row_scale (nth c (fst r) 0) piv).

Fixpoint find_pivot (c : nat) (todo : list arow) : option (arow * list arow) :=
  match todo with
  | [] => None
  | r :: t =>
      if Qceqb (nth c (fst r) 0) 0 then
        match find_pivot c t with
        | Some (p, rest) => Some (p, r :: rest)
        | None => None
        end
      else Some (r, t)
  end.

Fixpoint gj (steps c : nat) (done todo : list arow) : option (list arow) :=
  match steps with
  | O => Some done
  | S s =>
      match find_pivot c todo with
      | None => None
      | Some (p, rest) =>
          let p' := row_scale (/ nth c (fst p) 0) p in
          gj s (S c) (map (eliminate c p') done ++ [p']) (map (eliminate c p') rest)
      end
  end.

Definition unit_row (n i : nat) : list Qc :=
  map (fun j => if (j =? i)%nat then 1 else 0) (seq 0 n).

Definition identity (n : nat) : list (list Qc) := map (unit_row n) (seq 0 n).

Definition gauss_jordan (A : list (list Qc)) : option (list (list Qc)) :=
  let n := length A in
  match gj n 0 [] (combine A (identity n)) with
  | Some done => Some (map snd done)
  | None => None
  end.

Definition num_of (v : val) : option Qc :=
  match v with Num q => Some q | NaN => None end.

Fixpoint all_some {A : Type} (l : list (option A)) : option (list A) :=
  match l with
  | [] => Some []
  | Some a :: t => match all_some t with Some r => Some (a :: r) | None => None end
  | None :: _ => None
  end.

Definition finite_matrix (A : list (list val)) : option (list (list Qc)) :=
  all_some (map (fun r => all_some (map num_of r)) A).

Definition inv (A : list (list val)) : result (list (list val)) :=
  match finite_matrix A with
  | Some Aq =>
      match gauss_jordan Aq with
      | Some B => Ok (lift B)
      | None => Raise LinAlgError
      end
  | None => Ok (map (map (fun _ => NaN)) A)
  end.

(** ** Shapes: squeeze and broadcasting *)

(** The result of [.squeeze()] on the [(m, p, 1)] array of coefficients has
    zero, one or two axes, depending on which of [m] and [p] are 1. *)
Inductive ndarray : Type :=
| Arr0 (v : val)
| Arr1 (l : list val)
| Arr2 (l : list (list val)).

Definition entry0 (col : list val) : val := hd NaN col.

Definition squeeze (m p : nat) (b : list (list (list val))) : ndarray :=
  match (m =? 1)%nat, (p =? 1)%nat with
  | true, true => Arr0 (entry0 (hd [] (hd [] b)))
  | true, false => Arr1 (map entry0 (hd [] b))
  | false, true => Arr1 (map (fun mat => entry0 (hd [] mat)) b)
  | false, false => Arr2 (map (map entry0) b)
  end.

(** [betas * e] for [e] of shape [(m, p)], by numpy's broadcasting rules: a
    one-axis [betas] of length [L] is read as shape [(1, L)]. *)
Definition broadcast_mul (betas : ndarray) (p : nat) (e : list (list val))
  : result (list (list val)) :=
  match betas with
  | Arr0 v => Ok (map (map (vmul v)) e)
  | Arr1 l =>
      if (length l =? p)%nat then Ok (map (fun r => map2 vmul l r) e)
      else if (p =? 1)%nat then Ok (map (fun r => map (fun b => vmul b (entry0 r)) l) e)
      else if (length l =? 1)%nat then Ok (map (map (vmul (entry0 l))) e)
      else Raise ValueError
  | Arr2 b => Ok (map2 (map2 vmul) b e)
  end.

(** ** The pipeline *)

Definition powers (degree : nat) (v : Qc) : list Qc :=
  map (fun i => v ^ i) (seq 0 (degree + 1)).

Definition tricube (u : val) : val :=
  clip (vpow (vsub (Num 1) (vpow u 3)) 3) 0 1.

Inductive output : Type :=
| Pairs (l : list (Qc * val))   (* two columns: sorted x, prediction *)
| Values (l : list val).        (* predictions only *)

(** [int(np.ceil(span * len(x)))] *)
Definition ceil_span (span : Qc) (n : nat) : Z :=
  Qceiling (this span * inject_Z (Z.of_nat n))%Q.

(** Lines 36-38: both arrays reordered by ascending x. *)
Definition sort_by_x (x y : list Qc) : result (list Qc * list Qc) :=
  let order := argsort x in
  let x := gather x order in
  y <- take y order ;;
  Ok (x, y).

(** Line 44: [np.abs(eval_x[:, None] - x)]. *)
Definition distances (x eval_x : list Qc) : list (list Qc) :=
  map (fun e => map (fun xi => Qcabs (e - xi)) x) eval_x.

(** Line 45: [np.argsort(dists, axis=1)[:, :k]]. *)
Definition neighbors (k : Z) (dists : list (list Qc)) : list (list nat) :=
  map (fun row => slice_to k (argsort row)) dists.

(** Lines 49-50: tricubic weights of the selected distances. *)
Definition kernel (ncols : nat) (dists : list (list Qc)) : result (list (list val)) :=
  maxs <- amax_axis1 ncols dists ;;
  let normed_dists := map2 (fun row mx => map (fun d => vdiv d mx) row) dists maxs in
  Ok (map (map tricube) normed_dists).

(** Lines 60-65: the batched weighted normal equations, then [squeeze]. *)
Definition solve (degree ncols num_eval : nat)
           (subset_x : list (list (list Qc))) (subset_y : list (list Qc))
           (weights : list (list val)) : result ndarray :=
  let xt := map (fun X => lift (transpose 0 (degree + 1) X)) subset_x in
  let xtw := map2 (scale_cols vmul) xt weights in
  invs <- mapM inv (map2 (vmatmul (degree + 1)) xtw (map lift subset_x)) ;;
  Ok (squeeze num_eval (degree + 1)
        (map2 (vmatmul 1)
           (map2 (scale_cols vmul) (map2 (vmatmul ncols) invs xt) weights)
           (map (map (fun v => [Num v])) subset_y))).

(** Lines 36-67: everything up to [yhat], returned together with the
    evaluation design matrix. *)
Definition loess_yhat (x y : list Qc) (eval_x : option (list Qc))
           (degree : nat) (span : Qc) : result (list (list Qc) * list val) :=
  xy <- sort_by_x x y ;;
  let (x, y) := xy in
  let eval_x := match eval_x with None => x | Some e => e end in
  let num_eval := length eval_x in
  let dists := distances x eval_x in
  let k := ceil_span span (length x) in
  let relevant_inds := neighbors k dists in
  let dists := map2 gather dists relevant_inds in
  let ncols := slice_stop k (length x) in
  weights <- kernel ncols dists ;;
  let subset_x := map (gather x) relevant_inds in
  let subset_y := map (gather y) relevant_inds in
  let subset_x := map (map (powers degree)) subset_x in
  let eval_x := map (powers degree) eval_x in
  betas <- solve degree ncols num_eval subset_x subset_y weights ;;
  prod <- broadcast_mul betas (degree + 1) (lift eval_x) ;;
  let yhat := map (vsum (Num 0) vadd) prod in
  Ok (eval_x, yhat).

(** [a[:, 1]] on an array with [p] columns. *)
Definition column1 (p : nat) (a : list (list Qc)) : result (list Qc) :=
  if (1 <? p)%nat then Ok (map (fun r => nth 1 r 0) a) else Raise IndexError.

Definition loess (x y : list Qc) (eval_x : option (list Qc))
           (degree : nat) (span : Qc) : result output :=
  let return_x := match eval_x with None => true | Some _ => false end in
  ey <- loess_yhat x y eval_x degree span ;;
  let (eval_x, yhat) := ey in
  if return_x then
    xs <- column1 (degree + 1) eval_x ;;
    Ok (Pairs (combine xs yhat))
  else Ok (Values yhat).

(** ** One evaluation point at a time

    Every batched array above is a map over the evaluation points; these
    are the rows.  [loess_yhat_rows] below relates the two views. *)

Definition row_dists (x : list Qc) (e : Qc) : list Qc :=
  map (fun xi => Qcabs (e - xi)) x.

Definition row_inds (k : Z) (x : list Qc) (e : Qc) : list nat :=
  slice_to k (argsort (row_dists x e)).

Definition row_sel (k : Z) (x : list Qc) (e : Qc) : list Qc :=
  gather (row_dists x e) (row_inds k x e).

Definition row_weights (d : list Qc) : list val :=
  map (fun v => tricube (vdiv v (Qcmaxl d))) d.

Definition row_normal (degree : nat) (X : list (list Qc)) (w : list val)
  : list (list val) :=
  vmatmul (degree + 1) (scale_cols vmul (lift (transpose 0 (degree + 1) X)) w) (lift X).

Definition row_betas (degree ncols : nat) (X : list (list Qc)) (ys : list Qc)
           (w : list val) : result (list (list val)) :=
  iA <- inv (row_normal degree X w) ;;
  Ok (vmatmul 1
        (scale_cols vmul (vmatmul ncols iA (lift (transpose 0 (degree + 1) X))) w)
        (map (fun v => [Num v]) ys)).

Definition row_fit (degree : nat) (k : Z) (x y : list Qc) (e : Qc)
  : result (list (list val)) :=
  let inds := row_inds k x e in
  row_betas degree (slice_stop k (length x))
            (map (powers degree) (gather x inds)) (gather y inds)
            (row_weights (row_sel k x e)).

Definition predict_rows (degree : nat) (ev : list Qc) (B : list (list (list val)))
  : result (list (list Qc) * list val) :=
  prod <- broadcast_mul (squeeze (length ev) (degree + 1) B) (degree + 1)
                        (lift (map (powers degree) ev)) ;;
  Ok (map (powers degree) ev, map (vsum (Num 0) vadd) prod).

(** ** The specification's formulas

    These follow the words of the specification, to be compared with what
    the pipeline computes. *)

Definition vquot (a b : val) : val :=
  match a, b with
  | Num p, Num q => vdiv p q
  | _, _ => NaN
  end.

(** Degree-0 property: the tricubic-weighted average [sum w*y / sum w]. *)
Definition weighted_average (w : list val) (ys : list Qc) : val :=
  vquot (vsum (Num 0) vadd (map2 vmul w (map Num ys))) (vsum (Num 0) vadd w).

(** [diag(w)] *)
Definition diag (w : list val) : list (list val) :=
  map (fun i => map (fun j => if (i =? j)%nat then nth i w NaN else Num 0)
                    (seq 0 (length w)))
      (seq 0 (length w)).

(** [(X^T diag(w) X)^{-1} X^T diag(w) y] for the design matrix [X] of the
    powers [0..degree] of [xs]. *)
Definition wls_closed_form (degree : nat) (xs ys : list Qc) (w : list val)
  : result (list val) :=
  let X := map (powers degree) xs in
  let XtW := vmatmul (length w) (lift (transpose 0 (degree + 1) X)) (diag w) in
  iA <- inv (vmatmul (degree + 1) XtW (lift X)) ;;
  Ok (map entry0 (vmatmul 1 (vmatmul (length w) iA XtW) (map (fun v => [Num v]) ys))).

(** [E . betas] *)
Definition dot (e betas : list val) : val :=
  vsum (Num 0) vadd (map2 vmul e betas).

(** The local fit of the specification at one evaluation point [e], on
    data already sorted by x. *)
Definition local_fit (degree : nat) (k : Z) (x y : list Qc) (e : Qc) : result val :=
  let inds := row_inds k x e in
  betas <- wls_closed_form degree (gather x inds) (gather y inds)
                           (row_weights (row_sel k x e)) ;;
  Ok (dot (map Num (powers degree e)) betas).

(** ** Literals and decidable equality of results *)

Definition qz (z : Z) : Qc := Q2Qc (inject_Z z).
Definition qfrac (n : Z) (d : positive) : Qc := Q2Qc (n # d).

Definition val_eqb (a b : val) : bool :=
  match a, b with
  | Num p, Num q => Qceqb p q
  | NaN, NaN => true
  | _, _ => false
  end.

Fixpoint list_eqb {A : Type} (eqb : A -> A -> bool) (l l' : list A) : bool :=
  match l, l' with
  | [], [] => true
  | a :: t, b :: t' => eqb a b && list_eqb eqb t t'
  | _, _ => false
  end.

Definition exn_eqb (a b : exn) : bool :=
  match a, b with
  | IndexError, IndexError | ValueError, ValueError | LinAlgError, LinAlgError => true
  | _, _ => false
  end.

Definition output_eqb (a b : output) : bool :=
  match a, b with
  | Pairs l, Pairs l' =>
      list_eqb (fun p q => Qceqb (fst p) (fst q) && val_eqb (snd p) (snd q)) l l'
  | Values l, Values l' => list_eqb val_eqb l l'
  | _, _ => false
  end.

Definition result_eqb {A : Type} (eqb : A -> A -> bool) (a b : result A) : bool :=
  match a, b with
  | Ok u, Ok v => eqb u v
  | Raise e, Raise e' => exn_eqb e e'
  | _, _ => false
  end.

(** ** Auxiliary definitions for the proofs *)

(** Concrete inputs. *)
Definition digits : list Qc := map qz [0;1;2;3;4;5;6;7;8;9]%Z.
Definition bug_x : list Qc := map qz [0;1;2;3]%Z.
Definition bug_y : list Qc := map qz [0;1;2;3]%Z.
Definition bug_eval : list Qc := map qz [0;3]%Z.

(** Order of two indices by their keys. *)
Definition key_le (key : nat -> Qc) (i j : nat) : Prop := key i <= key j.

(** The data after lines 36-38, and the evaluation points after line 41. *)
Definition sorted_x (x : list Qc) : list Qc := gather x (argsort x).
Definition sorted_y (x y : list Qc) : list Qc := gather y (argsort x).
Definition eval_points (x : list Qc) (eval_x : option (list Qc)) : list Qc :=
  match eval_x with None => sorted_x x | Some e => e end.

(** The kernel on finite arguments. *)
Definition clipq (q : Qc) : Qc :=
  if Qcleb q 0 then 0 else if Qcleb 1 q then 1 else q.

Definition tricubeq (u : Qc) : Qc := clipq ((1 - u ^ 3) ^ 3).

(** Every row of [A] has [p] entries. *)
Definition rect {T : Type} (p : nat) (A : list (list T)) : Prop :=
  Forall (fun r => length r = p) A.

(** Vectors and matrices of rationals. *)
Definition qsum (l : list Qc) : Qc := fold_right Qcplus 0 l.
Definition qadd (u v : list Qc) : list Qc := vec_add Qcplus u v.
Definition qscale (c : Qc) (v : list Qc) : list Qc := vec_scale Qcmult c v.
Definition qmul (u v : list Qc) : list Qc := vec_mul Qcmult u v.
Definition as_col (l : list Qc) : list (list Qc) := map (fun v => [v]) l.

Definition qdiag (wq : list Qc) : list (list Qc) :=
  map (fun i => map (fun j => if (i =? j)%nat then nth i wq 0 else 0)
                    (seq 0 (length wq)))
      (seq 0 (length wq)).

(** The normal matrix [X^T W X] of a row with finite weights. *)
Definition qnormal (degree : nat) (X : list (list Qc)) (wq : list Qc) : list (list Qc) :=
  qmatmul (degree + 1) (scale_cols Qcmult (transpose 0 (degree + 1) X) wq) X.

(** Line 67 on one row, for degree >= 1: [sum(betas[j] * eval_x[j])]. *)
Definition row_dot (degree : nat) (b : list (list val)) (e : Qc) : val :=
  vsum (Num 0) vadd (map2 vmul (map entry0 b) (map Num (powers degree e))).

(** Line 67 for degree 0 and m <> 1: the sum of all rows' coefficients. *)
Definition coefficient_sum (B : list (list (list val))) : val :=
  vsum (Num 0) vadd (map (fun mat => vmul (entry0 (hd [] mat)) (Num 1)) B).











(** Multiplication of every float of an array, or of every prediction of a
    result, by [a]. *)
Definition scale_ndarray (a : Qc) (b : ndarray) : ndarray :=
  match b with
  | Arr0 v => Arr0 (vmul (Num a) v)
  | Arr1 l => Arr1 (map (vmul (Num a)) l)
  | Arr2 l => Arr2 (map (map (vmul (Num a))) l)
  end.

Definition scale_output (a : Qc) (out : output) : output :=
  match out with
  | Pairs l => Pairs (map (fun p => (fst p, vmul (Num a) (snd p))) l)
  | Values l => Values (map (vmul (Num a)) l)
  end.

(** The sum of two results of the same shape, prediction by prediction. *)
Definition add_output (o1 o2 : output) : output :=
  match o1, o2 with
  | Pairs l1, Pairs l2 =>
      Pairs (map2 (fun p q => (fst p, vadd (snd p) (snd q))) l1 l2)
  | Values l1, Values l2 => Values (map2 vadd l1 l2)
  | _, _ => o1
  end.


(** * Basic facts *)

Lemma Qcleb_le (a b : Qc) : Qcleb a b = true <-> a <= b.
Proof. unfold Qcleb, Qcle. apply Qle_bool_iff. Qed.

Lemma Qcleb_gt (a b : Qc) : Qcleb a b = false <-> b < a.
Proof.
  split; intro H.
  - apply Qcnot_le_lt. intro L. apply Qcleb_le in L. congruence.
  - destruct (Qcleb a b) eqn:E; auto. apply Qcleb_le in E.
    exfalso. apply (Qclt_not_le _ _ H E).
Qed.

Lemma Qceqb_eq (a b : Qc) : Qceqb a b = true <-> a = b.
Proof.
  unfold Qceqb. rewrite Qeq_bool_iff. split.
  - apply Qc_is_canon.
  - intros ->. reflexivity.
Qed.

Lemma Qceqb_neq (a b : Qc) : Qceqb a b = false <-> a <> b.
Proof.
  split.
  - intros H E. apply Qceqb_eq in E. congruence.
  - intros H. destruct (Qceqb a b) eqn:E; auto. apply Qceqb_eq in E. contradiction.
Qed.

Lemma val_eqb_eq (a b : val) : val_eqb a b = true -> a = b.
Proof.
  destruct a, b; simpl; try discriminate; auto.
  intros H. apply Qceqb_eq in H. now subst.
Qed.

Lemma list_eqb_eq {A : Type} (eqb : A -> A -> bool) :
  (forall a b, eqb a b = true -> a = b) ->
  forall l l', list_eqb eqb l l' = true -> l = l'.
Proof.
  intros E. induction l as [|a t IH]; destruct l' as [|b t']; simpl; try discriminate; auto.
  intros H. apply andb_prop in H as [H1 H2]. f_equal; auto.
Qed.

Lemma exn_eqb_eq (a b : exn) : exn_eqb a b = true -> a = b.
Proof. destruct a, b; simpl; congruence. Qed.

Lemma output_eqb_eq (a b : output) : output_eqb a b = true -> a = b.
Proof.
  destruct a, b; simpl; try discriminate; intros H; f_equal.
  - revert H. apply list_eqb_eq. intros [p v] [q w]; simpl.
    intros H. apply andb_prop in H as [H1 H2].
    apply Qceqb_eq in H1. apply val_eqb_eq in H2. now subst.
  - revert H. apply list_eqb_eq, val_eqb_eq.
Qed.

Lemma result_eqb_eq {A : Type} (eqb : A -> A -> bool) :
  (forall a b, eqb a b = true -> a = b) ->
  forall r r' : result A, result_eqb eqb r r' = true -> r = r'.
Proof.
  intros E [a|e] [b|e']; simpl; try discriminate; intros H; f_equal; auto.
  now apply exn_eqb_eq.
Qed.

Lemma loess_by_eval (r r' : result output) :
  result_eqb output_eqb r r' = true -> r = r'.
Proof. apply result_eqb_eq, output_eqb_eq. Qed.

Ltac run_loess := apply loess_by_eval; vm_compute; reflexivity.

Example loess_quadratic :
  loess (map qz [0;1;2;3;4;5;6;7;8;9]%Z) (map qz [0;1;4;9;16;25;36;49;64;81]%Z)
        (Some [qfrac 9 2; qz 4]) 2 (qfrac 3 4)
  = Ok (Values [Num (qfrac 81 4); Num (qz 16)]).
Proof. run_loess. Qed.

(** ** Lists, [map2], [mapM] *)

Lemma map2_map_map {A B C D : Type} (f : B -> C -> D) (g : A -> B) (h : A -> C) l :
  map2 f (map g l) (map h l) = map (fun a => f (g a) (h a)) l.
Proof. induction l; simpl; congruence. Qed.

Lemma map2_map_r {A B C : Type} (f : A -> B -> C) (h : A -> B) l :
  map2 f l (map h l) = map (fun a => f a (h a)) l.
Proof. induction l; simpl; congruence. Qed.

Lemma map2_map_snd {A B C D : Type} (f : A -> C -> D) (h : B -> C) u l :
  map2 f u (map h l) = map2 (fun i a => f i (h a)) u l.
Proof. revert l. induction u; destruct l; simpl; congruence. Qed.

Lemma map2_map2_l {A B C D E : Type} (f : C -> D -> E) (g : A -> B -> C) (h : B -> D) u l :
  map2 f (map2 g u l) (map h l) = map2 (fun i a => f (g i a) (h a)) u l.
Proof. revert l. induction u; destruct l; simpl; congruence. Qed.

Lemma map2_length {A B C : Type} (f : A -> B -> C) l l' :
  length (map2 f l l') = Nat.min (length l) (length l').
Proof. revert l'. induction l; destruct l'; simpl; auto. Qed.

Lemma map2_ext {A B C : Type} (f g : A -> B -> C) l l' :
  (forall a b, f a b = g a b) -> map2 f l l' = map2 g l l'.
Proof. intros H. revert l'. induction l; destruct l'; simpl; congruence. Qed.

Lemma nth_map2 {A B C : Type} (f : A -> B -> C) l l' i da db dc :
  (i < length l)%nat -> (i < length l')%nat ->
  nth i (map2 f l l') dc = f (nth i l da) (nth i l' db).
Proof.
  revert l l'. induction i; intros [|a l] [|b l'] Hl Hl'; simpl in *; try lia; auto.
  apply IHi; lia.
Qed.

Lemma mapM_length {A B : Type} (f : A -> result B) l r :
  mapM f l = Ok r -> length r = length l.
Proof.
  revert r. induction l as [|a t IH]; simpl; intros r H.
  - now inversion H.
  - destruct (f a); simpl in H; try discriminate.
    destruct (mapM f t); simpl in H; try discriminate.
    inversion H; subst; simpl. f_equal. now apply IH.
Qed.

Lemma mapM_ext {A B : Type} (f g : A -> result B) l :
  (forall a, In a l -> f a = g a) -> mapM f l = mapM g l.
Proof.
  induction l as [|a t IH]; simpl; intros H; auto.
  rewrite H by auto. rewrite IH by auto. reflexivity.
Qed.

Lemma mapM_Ok {A B : Type} (f : A -> B) l :
  mapM (fun a => Ok (f a)) l = Ok (map f l).
Proof. induction l; simpl; auto. rewrite IHl. reflexivity. Qed.

Lemma mapM_nth {A B : Type} (f : A -> result B) l r i da db :
  mapM f l = Ok r -> (i < length l)%nat -> f (nth i l da) = Ok (nth i r db).
Proof.
  revert r i. induction l as [|a t IH]; simpl; intros r i H Hi; [lia|].
  destruct (f a) eqn:Ea; simpl in H; try discriminate.
  destruct (mapM f t) eqn:Et; simpl in H; try discriminate.
  inversion H; subst. destruct i; simpl; auto. apply IH; auto. lia.
Qed.

Lemma mapM_all_Ok {A B : Type} (f : A -> result B) (g : A -> B) l :
  (forall a, In a l -> f a = Ok (g a)) -> mapM f l = Ok (map g l).
Proof. intros H. rewrite (mapM_ext f (fun a => Ok (g a))) by auto. apply mapM_Ok. Qed.

Lemma mapM_Raise {A B : Type} (f : A -> result B) l e :
  (forall a, In a l -> f a = Raise e \/ exists b, f a = Ok b) ->
  (exists a, In a l /\ f a = Raise e) -> mapM f l = Raise e.
Proof.
  induction l as [|a t IH]; simpl; intros H [a0 [Hin Ha0]]; [contradiction|].
  destruct (H a (or_introl eq_refl)) as [Ha|[b Ha]]; rewrite Ha; simpl; auto.
  destruct Hin as [->|Hin]; [congruence|].
  rewrite IH; eauto.
Qed.

(** The batched inversion followed by batched products is a [mapM] of the
    row computation. *)
Lemma mapM_batch {A B C D : Type} (f : B -> result C) (g : A -> B)
      (phi : C -> A -> D) l :
  (invs <- mapM f (map g l) ;; Ok (map2 phi invs l))
  = mapM (fun a => i <- f (g a) ;; Ok (phi i a)) l.
Proof.
  induction l as [|a t IH]; simpl; auto.
  destruct (f (g a)); simpl; auto.
  rewrite <- IH. destruct (mapM f (map g t)); simpl; auto.
Qed.

Lemma map_nth_seq {A : Type} (l : list A) d :
  map (fun i => nth i l d) (seq 0 (length l)) = l.
Proof.
  induction l as [|a t IH]; simpl; auto.
  f_equal. rewrite <- seq_shift, map_map. exact IH.
Qed.

(** ** argsort *)

Section Argsort.
Variable key : nat -> Qc.

Lemma insert_idx_perm a l : Permutation (insert_idx key a l) (a :: l).
Proof.
  induction l as [|b t IH]; simpl; auto.
  destruct (Qcleb (key a) (key b)); auto.
  rewrite IH. apply perm_swap.
Qed.

Lemma insert_idx_sorted a l :
  StronglySorted (key_le key) l -> StronglySorted (key_le key) (insert_idx key a l).
Proof.
  induction 1 as [|b t Hs IH Hall]; simpl.
  - repeat constructor.
  - destruct (Qcleb (key a) (key b)) eqn:E.
    + apply Qcleb_le in E. constructor; [constructor; auto|].
      constructor; auto.
      eapply Forall_impl; [|exact Hall].
      intros c Hc. unfold key_le in *. eapply Qcle_trans; eauto.
    + apply Qcleb_gt in E. constructor; auto.
      rewrite (Forall_forall). intros c Hc.
      apply (Permutation_in _ (insert_idx_perm a t)) in Hc.
      destruct Hc as [<-|Hc].
      * unfold key_le. now apply Qclt_le_weak.
      * rewrite Forall_forall in Hall. auto.
Qed.

Lemma isort_perm l : Permutation (fold_right (insert_idx key) [] l) l.
Proof.
  induction l as [|a t IH]; simpl; auto.
  rewrite insert_idx_perm. now constructor.
Qed.

Lemma isort_sorted l : StronglySorted (key_le key) (fold_right (insert_idx key) [] l).
Proof.
  induction l as [|a t IH]; simpl; [constructor|].
  now apply insert_idx_sorted.
Qed.
End Argsort.

Lemma argsort_perm l : Permutation (argsort l) (seq 0 (length l)).
Proof. apply isort_perm. Qed.

Lemma argsort_length l : length (argsort l) = length l.
Proof. rewrite (Permutation_length (argsort_perm l)). apply length_seq. Qed.

Lemma argsort_lt l i : In i (argsort l) -> (i < length l)%nat.
Proof.
  intros H. apply (Permutation_in _ (argsort_perm l)) in H.
  apply in_seq in H. lia.
Qed.

Lemma argsort_sorted l : StronglySorted (key_le (fun i => nth i l 0)) (argsort l).
Proof. apply isort_sorted. Qed.

Lemma gather_argsort_perm l : Permutation (gather l (argsort l)) l.
Proof.
  unfold gather. rewrite (Permutation_map _ (argsort_perm l)).
  now rewrite map_nth_seq.
Qed.

Lemma gather_argsort_sorted l : StronglySorted Qcle (gather l (argsort l)).
Proof.
  unfold gather. generalize (argsort_sorted l).
  induction 1 as [|a t Hs IH Hall]; simpl; constructor; auto.
  rewrite Forall_map. exact Hall.
Qed.

Lemma gather_length a idx : length (gather a idx) = length idx.
Proof. apply length_map. Qed.

(** ** The batched pipeline, row by row *)

Lemma bind_ext {A B : Type} (c : result A) (k k' : A -> result B) :
  (forall a, k a = k' a) -> bind c k = bind c k'.
Proof. intros H. destruct c; simpl; auto. Qed.

Lemma bind_assoc {A B C : Type} (c : result A) (f : A -> result B) (g : B -> result C) :
  bind (bind c f) g = bind c (fun a => bind (f a) g).
Proof. destruct c; reflexivity. Qed.

Lemma mapM_batch_bind {A B C D E : Type} (f : B -> result C) (g : A -> B)
      (phi : C -> A -> D) (K : list D -> result E) l :
  (invs <- mapM f (map g l) ;; K (map2 phi invs l))
  = (rows <- mapM (fun a => i <- f (g a) ;; Ok (phi i a)) l ;; K rows).
Proof.
  rewrite <- mapM_batch, bind_assoc. reflexivity.
Qed.

Lemma kernel_rows ncols k x ev :
  kernel ncols (map2 gather (distances x ev) (neighbors k (distances x ev)))
  = if (ncols =? 0)%nat then Raise ValueError
    else Ok (map (fun e => row_weights (row_sel k x e)) ev).
Proof.
  unfold kernel, amax_axis1. destruct (ncols =? 0)%nat; simpl; auto.
  f_equal. unfold distances, neighbors.
  rewrite map_map, map2_map_map, map2_map_r, !map_map.
  apply map_ext. intros e. unfold row_weights, row_sel, row_inds, row_dists.
  now rewrite map_map.
Qed.

Lemma solve_rows degree k x y ev :
  solve degree (slice_stop k (length x)) (length ev)
        (map (map (powers degree)) (map (gather x) (neighbors k (distances x ev))))
        (map (gather y) (neighbors k (distances x ev)))
        (map (fun e => row_weights (row_sel k x e)) ev)
  = (B <- mapM (row_fit degree k x y) ev ;; Ok (squeeze (length ev) (degree + 1) B)).
Proof.
  unfold solve, neighbors, distances.
  rewrite !map_map.
  rewrite map2_map_map, map2_map_map.
  rewrite (bind_ext _ _ (fun invs => Ok (squeeze (length ev) (degree + 1)
     (map2 (fun iA e =>
        vmatmul 1
          (scale_cols vmul
             (vmatmul (slice_stop k (length x)) iA
                (lift (transpose 0 (degree + 1)
                   (map (powers degree) (gather x (row_inds k x e))))))
             (row_weights (row_sel k x e)))
          (map (fun v => [Num v]) (gather y (row_inds k x e)))) invs ev)))).
  - rewrite (mapM_batch_bind inv _ _ (fun B => Ok (squeeze (length ev) (degree + 1) B))).
    reflexivity.
  - intros invs. do 2 f_equal.
    rewrite (map2_map_snd (vmatmul (slice_stop k (length x)))).
    rewrite (map2_map2_l (scale_cols vmul)), (map2_map2_l (vmatmul 1)).
    reflexivity.
Qed.

Lemma loess_yhat_rows x y eval_x degree span :
  loess_yhat x y eval_x degree span =
  (xy <- sort_by_x x y ;;
   let ev := match eval_x with None => fst xy | Some e => e end in
   let k := ceil_span span (length (fst xy)) in
   if (slice_stop k (length (fst xy)) =? 0)%nat then Raise ValueError
   else B <- mapM (row_fit degree k (fst xy) (snd xy)) ev ;;
        predict_rows degree ev B).
Proof.
  unfold loess_yhat. apply bind_ext. intros [x' y']. cbv zeta. simpl fst; simpl snd.
  set (ev := match eval_x with None => x' | Some e => e end).
  rewrite kernel_rows.
  destruct (slice_stop (ceil_span span (length x')) (length x') =? 0)%nat; simpl; auto.
  rewrite solve_rows. rewrite bind_assoc. reflexivity.
Qed.

(** ** Ordering and neighbourhood size *)

Lemma take_gather (a : list Qc) idx :
  (forall i, In i idx -> (i < length a)%nat) -> take a idx = Ok (gather a idx).
Proof.
  intros H. unfold take, gather. apply mapM_all_Ok.
  intros i Hi. rewrite (nth_error_nth' a 0) by auto. reflexivity.
Qed.

Lemma sort_by_x_ok x y :
  (length x <= length y)%nat ->
  sort_by_x x y = Ok (gather x (argsort x), gather y (argsort x)).
Proof.
  intros H. unfold sort_by_x. rewrite take_gather; [reflexivity|].
  intros i Hi. apply argsort_lt in Hi. lia.
Qed.

Lemma sorted_x_length x : length (gather x (argsort x)) = length x.
Proof. now rewrite gather_length, argsort_length. Qed.

Lemma ceil_span_pos span n :
  0 < span -> (0 < n)%nat -> (0 < ceil_span span n)%Z.
Proof.
  intros Hs Hn. unfold ceil_span.
  set (q := (this span * inject_Z (Z.of_nat n))%Q).
  assert (Hq : (0 < q)%Q).
  { apply Qmult_lt_0_compat; [exact Hs|].
    change 0%Q with (inject_Z 0). rewrite <- Zlt_Qlt. lia. }
  assert (H0 : (inject_Z 0 < inject_Z (Qceiling q))%Q).
  { eapply Qlt_le_trans; [exact Hq | apply Qle_ceiling]. }
  rewrite <- Zlt_Qlt in H0. exact H0.
Qed.

Lemma slice_stop_pos k n : (0 < k)%Z -> (0 < n)%nat -> (0 < slice_stop k n)%nat.
Proof.
  intros Hk Hn. unfold slice_stop.
  destruct (Z.ltb_spec k 0); lia.
Qed.

Lemma slice_stop_le k n : (slice_stop k n <= n)%nat.
Proof. unfold slice_stop. destruct (Z.ltb_spec k 0); lia. Qed.


Lemma predict_rows_nil degree : predict_rows degree [] [] = Ok ([], []).
Proof.
  unfold predict_rows, squeeze, broadcast_mul. cbn [length Nat.eqb map lift].
  destruct (degree + 1 =? 1)%nat eqn:E; [|reflexivity].
  apply Nat.eqb_eq in E. rewrite E. reflexivity.
Qed.

(** * The behaviour of the pipeline *)

(** C8. For equal-length [x], [y] with at least one point, every degree and
    every positive span, an explicit empty [eval_x] raises nothing and
    yields the empty prediction sequence. *)
Theorem C8_empty_eval_x (x y : list Qc) (degree : nat) (span : Qc) :
  length x = length y -> (1 <= length x)%nat -> 0 < span ->
  loess x y (Some []) degree span = Ok (Values []).
Proof.
  intros Hlen Hn Hs. unfold loess. rewrite loess_yhat_rows.
  rewrite sort_by_x_ok by lia. simpl. rewrite sorted_x_length.
  assert (Hk : (0 < slice_stop (ceil_span span (length x)) (length x))%nat).
  { apply slice_stop_pos; [apply ceil_span_pos|]; auto. }
  destruct (slice_stop (ceil_span span (length x)) (length x) =? 0)%nat eqn:E.
  - apply Nat.eqb_eq in E. lia.
  - rewrite predict_rows_nil. reflexivity.
Qed.

Lemma C8_empty_eval_x_witness :
  loess (map qz [0;1;2]%Z) (map qz [5;7;6]%Z) (Some []) 2 (qfrac 3 4) = Ok (Values []).
Proof.
  apply C8_empty_eval_x.
  - reflexivity.
  - simpl. lia.
  - reflexivity.
Defined.

(** ** Degree 0: the squeezed coefficients broadcast across rows *)

Lemma val_list_by_eval (l l' : list val) : list_eqb val_eqb l l' = true -> l = l'.
Proof. apply list_eqb_eq, val_eqb_eq. Qed.

Lemma fits_by_eval (l l' : list (result val)) :
  list_eqb (result_eqb val_eqb) l l' = true -> l = l'.
Proof. apply list_eqb_eq, result_eqb_eq, val_eqb_eq. Qed.

(** C2. With degree 0 and the two evaluation points 0 and 3 on
    x = y = [0,1,2,3], span 3/4 (k = 3), the tricubic-weighted averages of
    the two neighbourhoods are 343/855 and 2222/855, but [loess] returns
    their sum, 3, at both points: the squeezed coefficient vector of shape
    (m,) is broadcast against the (m,1) evaluation matrix. *)
Theorem C2_degree0_not_weighted_average :
  loess bug_x bug_y (Some bug_eval) 0 (qfrac 3 4) = Ok (Values [Num (qz 3); Num (qz 3)])
  /\ map (fun e => weighted_average (row_weights (row_sel 3 bug_x e))
                                    (gather bug_y (row_inds 3 bug_x e))) bug_eval
     = [Num (qfrac 343 855); Num (qfrac 2222 855)].
Proof.
  split.
  - run_loess.
  - apply val_list_by_eval. vm_compute. reflexivity.
Qed.

(** C1. On the same input the closed-form coefficients evaluated at each
    point, [E[j] . betas[j]], are 343/855 and 2222/855, while the returned
    predictions are 3 and 3. *)
Theorem C1_prediction_not_dot_product :
  sort_by_x bug_x bug_y = Ok (bug_x, bug_y)
  /\ ceil_span (qfrac 3 4) (length bug_x) = 3%Z
  /\ map (local_fit 0 3 bug_x bug_y) bug_eval
     = [Ok (Num (qfrac 343 855)); Ok (Num (qfrac 2222 855))]
  /\ loess bug_x bug_y (Some bug_eval) 0 (qfrac 3 4) = Ok (Values [Num (qz 3); Num (qz 3)]).
Proof.
  split; [|split; [|split]].
  - rewrite sort_by_x_ok by reflexivity. reflexivity.
  - vm_compute. reflexivity.
  - apply fits_by_eval. vm_compute. reflexivity.
  - run_loess.
Qed.

(** ** The row maximum *)








(** ** Kernel weights *)

Lemma clipq_bounds q : 0 <= clipq q <= 1.
Proof.
  unfold clipq. destruct (Qcleb q 0) eqn:E0.
  - split; [apply Qcle_refl | discriminate].
  - destruct (Qcleb 1 q) eqn:E1.
    + split; [discriminate | apply Qcle_refl].
    + apply Qcleb_gt in E0. apply Qcleb_gt in E1.
      split; now apply Qclt_le_weak.
Qed.

Lemma tricube_Num u : tricube (Num u) = Num (tricubeq u).
Proof.
  change (tricube (Num u)) with (clip (Num ((1 - u ^ 3) ^ 3)) 0 1).
  unfold tricubeq, clipq, clip.
  destruct (Qcleb ((1 - u ^ 3) ^ 3) 0); auto.
  destruct (Qcleb 1 ((1 - u ^ 3) ^ 3)); auto.
Qed.

Lemma tricube_NaN : tricube NaN = NaN.
Proof. reflexivity. Qed.

Lemma tricubeq_1 : tricubeq 1 = 0.
Proof. apply Qc_is_canon. reflexivity. Qed.

Lemma tricubeq_0 : tricubeq 0 = 1.
Proof. apply Qc_is_canon. reflexivity. Qed.

Lemma vdiv_nonzero a b : b <> 0 -> vdiv a b = Num (a / b).
Proof. intros H. unfold vdiv. apply Qceqb_neq in H. now rewrite H. Qed.

Lemma vdiv_zero a : vdiv a 0 = NaN.
Proof. reflexivity. Qed.

Lemma row_weights_finite d :
  Qcmaxl d <> 0 ->
  row_weights d = map Num (map (fun v => tricubeq (v / Qcmaxl d)) d).
Proof.
  intros H. unfold row_weights. rewrite map_map. apply map_ext.
  intros v. now rewrite vdiv_nonzero, tricube_Num.
Qed.

Lemma row_weights_nan d :
  Qcmaxl d = 0 -> row_weights d = map (fun _ => NaN) d.
Proof.
  intros H. unfold row_weights. rewrite H. apply map_ext.
  intros v. reflexivity.
Qed.

Lemma kernel_Ok ncols dists :
  ncols <> 0%nat -> kernel ncols dists = Ok (map row_weights dists).
Proof.
  intros H. unfold kernel, amax_axis1.
  apply Nat.eqb_neq in H. rewrite H. simpl. f_equal.
  rewrite map2_map_r, map_map. apply map_ext. intros row.
  unfold row_weights. now rewrite map_map.
Qed.

Lemma kernel_inv ncols dists weights :
  kernel ncols dists = Ok weights -> weights = map row_weights dists.
Proof.
  intros H. destruct (Nat.eq_dec ncols 0) as [->|Hn].
  - discriminate.
  - rewrite kernel_Ok in H by auto. now inversion H.
Qed.



(** ** Shapes *)

Section Shapes.
Variable T : Type.
Variable zero : T.
Variables add mul : T -> T -> T.

Lemma vec_add_length (u v : list T) :
  length (vec_add add u v) = Nat.min (length u) (length v).
Proof. apply map2_length. Qed.

Lemma vec_scale_length c (v : list T) : length (vec_scale mul c v) = length v.
Proof. apply length_map. Qed.

Lemma vecmat_nil_l p (B : list (list T)) :
  vecmat zero add mul p [] B = repeat zero p.
Proof. reflexivity. Qed.

Lemma vecmat_nil_r p r :
  vecmat zero add mul p r [] = repeat zero p.
Proof. unfold vecmat. now rewrite combine_nil. Qed.

Lemma vecmat_cons p c r b (B : list (list T)) :
  vecmat zero add mul p (c :: r) (b :: B)
  = vec_add add (vec_scale mul c b) (vecmat zero add mul p r B).
Proof. reflexivity. Qed.

Lemma vecmat_length p r (B : list (list T)) :
  rect p B -> length (vecmat zero add mul p r B) = p.
Proof.
  revert r. induction B as [|b B IH]; intros r H.
  - rewrite vecmat_nil_r. apply repeat_length.
  - destruct r as [|c r]; [apply repeat_length|].
    inversion H as [|? ? Hb HB]; subst.
    rewrite vecmat_cons, vec_add_length, vec_scale_length, (IH r HB).
    apply Nat.min_id.
Qed.

Lemma matmul_rect p A (B : list (list T)) :
  rect p B -> rect p (matmul zero add mul p A B).
Proof.
  intros H. unfold rect, matmul. rewrite Forall_map.
  apply Forall_forall. intros r _. now apply vecmat_length.
Qed.

Lemma matmul_length p A (B : list (list T)) :
  length (matmul zero add mul p A B) = length A.
Proof. apply length_map. Qed.

Lemma transpose_rect p (A : list (list T)) :
  rect (length A) (transpose zero p A).
Proof.
  unfold rect, transpose. rewrite Forall_map.
  apply Forall_forall. intros j _. apply length_map.
Qed.

Lemma transpose_length p (A : list (list T)) :
  length (transpose zero p A) = p.
Proof. unfold transpose. now rewrite length_map, length_seq. Qed.

End Shapes.

Lemma rect_lift p A : rect p A -> rect p (lift A).
Proof.
  unfold rect, lift. intros H. rewrite Forall_map.
  eapply Forall_impl; [|exact H]. intros r Hr. now rewrite length_map.
Qed.

Lemma rect_powers degree xs : rect (degree + 1) (map (powers degree) xs).
Proof.
  unfold rect. rewrite Forall_map. apply Forall_forall. intros v _.
  unfold powers. now rewrite length_map, length_seq.
Qed.

(** ** Finite arrays compute in the rationals *)

Lemma map2_Num (f : Qc -> Qc -> Qc) (g : val -> val -> val) u v :
  (forall a b, g (Num a) (Num b) = Num (f a b)) ->
  map2 g (map Num u) (map Num v) = map Num (map2 f u v).
Proof. intros H. revert v. induction u; destruct v; simpl; auto. now rewrite H, IHu. Qed.

Lemma vecmat_lift p r B :
  vecmat (Num 0) vadd vmul p (map Num r) (lift B) = map Num (qvecmat p r B).
Proof.
  unfold qvecmat. revert r. induction B as [|b B IH]; intros r.
  - simpl lift. rewrite !vecmat_nil_r. symmetry. apply map_repeat.
  - destruct r as [|c r]; [symmetry; apply map_repeat|].
    simpl map. simpl lift. rewrite !vecmat_cons. fold (lift B). rewrite IH.
    unfold vec_add, vec_scale.
    rewrite <- (map2_Num Qcplus vadd) by reflexivity.
    now rewrite !map_map.
Qed.

Lemma vmatmul_lift p A B : vmatmul p (lift A) (lift B) = lift (qmatmul p A B).
Proof.
  unfold vmatmul, qmatmul, matmul, lift. rewrite !map_map.
  apply map_ext. intros r. apply vecmat_lift.
Qed.

Lemma scale_cols_lift A w :
  scale_cols vmul (lift A) (map Num w) = lift (scale_cols Qcmult A w).
Proof.
  unfold scale_cols, lift. rewrite !map_map. apply map_ext. intros r.
  unfold vec_mul. now apply map2_Num.
Qed.

Lemma all_some_map_Some {A : Type} (l : list A) : all_some (map Some l) = Some l.
Proof. induction l; simpl; auto. now rewrite IHl. Qed.

Lemma finite_matrix_lift A : finite_matrix (lift A) = Some A.
Proof.
  unfold finite_matrix, lift. rewrite map_map.
  rewrite (map_ext _ Some).
  - apply all_some_map_Some.
  - intros r. rewrite map_map. apply all_some_map_Some.
Qed.

Lemma all_some_None_in {A : Type} (l : list (option A)) :
  In None l -> all_some l = None.
Proof.
  induction l as [|[a|] t IH]; simpl; intros H; auto; try contradiction.
  destruct H as [H|H]; [discriminate|]. now rewrite IH.
Qed.

Lemma finite_matrix_NaN A r :
  In r A -> In NaN r -> finite_matrix A = None.
Proof.
  intros Hr Hn. unfold finite_matrix. apply all_some_None_in.
  apply in_map_iff. exists r. split; auto.
  apply all_some_None_in. apply in_map_iff. exists NaN. auto.
Qed.

Lemma inv_lift A :
  inv (lift A) = match gauss_jordan A with
                 | Some B => Ok (lift B)
                 | None => Raise LinAlgError
                 end.
Proof. unfold inv. now rewrite finite_matrix_lift. Qed.

(** ** Span *)






(** ** Row shapes *)

Lemma row_dists_length x e : length (row_dists x e) = length x.
Proof. apply length_map. Qed.

Lemma row_inds_length k x e : length (row_inds k x e) = slice_stop k (length x).
Proof.
  unfold row_inds, slice_to.
  rewrite argsort_length, row_dists_length, length_firstn, argsort_length, row_dists_length.
  apply Nat.min_l, slice_stop_le.
Qed.

Lemma row_sel_length k x e : length (row_sel k x e) = slice_stop k (length x).
Proof. unfold row_sel. now rewrite gather_length, row_inds_length. Qed.

Lemma row_weights_length d : length (row_weights d) = length d.
Proof. apply length_map. Qed.

Lemma In_firstn {A : Type} n (l : list A) a : In a (firstn n l) -> In a l.
Proof.
  intros H. rewrite <- (firstn_skipn n l). apply in_or_app. now left.
Qed.

Lemma row_inds_lt k x e i : In i (row_inds k x e) -> (i < length x)%nat.
Proof.
  unfold row_inds, slice_to. intros H. apply In_firstn in H.
  apply argsort_lt in H. now rewrite row_dists_length in H.
Qed.

(** ** NaN weights make the whole row NaN *)

Lemma map2_repeat_NaN_l (g : val -> val -> val) n v :
  (forall b, g NaN b = NaN) -> length v = n ->
  map2 g (repeat NaN n) v = repeat NaN n.
Proof.
  intros H. revert v. induction n; intros [|b v] Hv; simpl in *; try lia; auto.
  rewrite H, IHn; auto.
Qed.

Lemma map2_repeat_NaN_r (g : val -> val -> val) n u :
  (forall a, g a NaN = NaN) -> length u = n ->
  map2 g u (repeat NaN n) = repeat NaN n.
Proof.
  intros H. revert u. induction n; intros [|b u] Hu; simpl in *; try lia; auto.
  rewrite H, IHn; auto.
Qed.

Lemma vmul_NaN_r a : vmul a NaN = NaN.
Proof. now destruct a. Qed.

Lemma vadd_NaN_r a : vadd a NaN = NaN.
Proof. now destruct a. Qed.

Lemma map_const_repeat {A B : Type} (c : B) (l : list A) :
  map (fun _ => c) l = repeat c (length l).
Proof. induction l; simpl; congruence. Qed.

Lemma vecmat_NaN p n B :
  (0 < n)%nat -> length B = n -> rect p B ->
  vecmat (Num 0) vadd vmul p (repeat NaN n) B = repeat NaN p.
Proof.
  intros Hn HB HR.
  destruct n; [lia|]. destruct B as [|b B]; [discriminate|].
  simpl repeat. rewrite vecmat_cons.
  inversion HR as [|? ? Hb HR']; subst.
  unfold vec_scale, vec_add.
  rewrite (map_ext _ (fun _ => NaN)) by reflexivity.
  rewrite map_const_repeat.
  apply map2_repeat_NaN_l; [reflexivity|].
  now apply vecmat_length.
Qed.

Lemma scale_cols_NaN p A :
  rect p A -> scale_cols vmul A (repeat NaN p) = map (fun _ => repeat NaN p) A.
Proof.
  intros H. unfold scale_cols. apply map_ext_in. intros r Hr.
  unfold rect in H. rewrite Forall_forall in H.
  apply map2_repeat_NaN_r; [apply vmul_NaN_r | auto].
Qed.

(** With NaN weights the normal matrix is all NaN, the inverse is all NaN,
    and so are the coefficients. *)
Lemma row_normal_NaN degree xs :
  xs <> [] ->
  row_normal degree (map (powers degree) xs) (repeat NaN (length xs))
  = repeat (repeat NaN (degree + 1)) (degree + 1).
Proof.
  intros Hx. unfold row_normal.
  set (X := map (powers degree) xs).
  assert (HX : length X = length xs) by apply length_map.
  assert (Hr : rect (length xs) (lift (transpose 0 (degree + 1) X))).
  { apply rect_lift. rewrite <- HX. apply transpose_rect. }
  rewrite scale_cols_NaN by exact Hr.
  unfold vmatmul, matmul. rewrite map_map.
  rewrite (map_ext _ (fun _ => repeat NaN (degree + 1))).
  - rewrite map_const_repeat. unfold lift.
    now rewrite length_map, transpose_length.
  - intros r. apply vecmat_NaN.
    + destruct xs; [contradiction|simpl; lia].
    + unfold lift. now rewrite length_map.
    + apply rect_lift, rect_powers.
Qed.

Lemma finite_matrix_all_NaN n p :
  (0 < n)%nat -> (0 < p)%nat -> finite_matrix (repeat (repeat NaN p) n) = None.
Proof.
  intros Hn Hp. apply (finite_matrix_NaN _ (repeat NaN p)).
  - destruct n; [lia|]. now left.
  - destruct p; [lia|]. now left.
Qed.

Lemma inv_all_NaN n p :
  (0 < n)%nat -> (0 < p)%nat ->
  inv (repeat (repeat NaN p) n) = Ok (repeat (repeat NaN p) n).
Proof.
  intros Hn Hp. unfold inv. rewrite finite_matrix_all_NaN by auto.
  f_equal. rewrite map_repeat. f_equal. now rewrite map_repeat.
Qed.

Lemma row_betas_NaN degree xs ys :
  xs <> [] -> length ys = length xs ->
  row_betas degree (length xs) (map (powers degree) xs) ys (repeat NaN (length xs))
  = Ok (repeat [NaN] (degree + 1)).
Proof.
  intros Hx Hy. unfold row_betas.
  rewrite row_normal_NaN by auto.
  rewrite inv_all_NaN by lia. cbn [bind]. f_equal.
  set (X := map (powers degree) xs).
  assert (HX : length X = length xs) by apply length_map.
  assert (Hr : rect (length xs) (lift (transpose 0 (degree + 1) X))).
  { apply rect_lift. rewrite <- HX. apply transpose_rect. }
  rewrite scale_cols_NaN by (apply matmul_rect; exact Hr).
  unfold vmatmul at 1. unfold matmul. rewrite !map_map.
  rewrite (map_ext _ (fun _ => [NaN])).
  - rewrite map_const_repeat. unfold vmatmul.
    now rewrite matmul_length, repeat_length.
  - intros r. apply (vecmat_NaN 1).
    + destruct xs; [contradiction|simpl; lia].
    + now rewrite length_map.
    + unfold rect. rewrite Forall_map. apply Forall_forall. reflexivity.
Qed.

Lemma row_fit_NaN degree k x y e :
  (0 < slice_stop k (length x))%nat ->
  Qcmaxl (row_sel k x e) = 0 ->
  row_fit degree k x y e = Ok (repeat [NaN] (degree + 1)).
Proof.
  intros Hn Hmax. unfold row_fit.
  rewrite row_weights_nan by exact Hmax.
  rewrite map_const_repeat, row_sel_length.
  rewrite <- (row_inds_length k x e), <- (gather_length x (row_inds k x e)).
  apply row_betas_NaN.
  - intros E. apply (f_equal (@length Qc)) in E.
    rewrite gather_length, row_inds_length in E. simpl in E. lia.
  - now rewrite !gather_length.
Qed.

(** ** Zero weights make the normal matrix zero, hence singular *)

Lemma qvecmat_zero_l p n B :
  rect p B -> qvecmat p (repeat 0 n) B = repeat 0 p.
Proof.
  unfold qvecmat. revert B. induction n; intros B H.
  - reflexivity.
  - destruct B as [|b B]; [reflexivity|].
    simpl repeat. rewrite vecmat_cons.
    inversion H as [|? ? Hb HB]; subst.
    rewrite IHn by exact HB.
    unfold vec_add, vec_scale. clear.
    induction b as [|c b IH]; simpl; auto.
    rewrite IH. f_equal; ring.
Qed.

Lemma scale_cols_zero p (A : list (list Qc)) :
  rect p A -> scale_cols Qcmult A (repeat 0 p) = map (fun _ => repeat 0 p) A.
Proof.
  intros H. unfold scale_cols. apply map_ext_in. intros r Hr.
  unfold rect in H. rewrite Forall_forall in H. specialize (H r Hr).
  unfold vec_mul. subst p. clear. induction r; simpl; auto.
  rewrite IHr. f_equal; ring.
Qed.

Lemma row_normal_zero degree xs :
  row_normal degree (map (powers degree) xs) (map Num (repeat 0 (length xs)))
  = lift (repeat (repeat 0 (degree + 1)) (degree + 1)).
Proof.
  unfold row_normal. rewrite scale_cols_lift, vmatmul_lift. f_equal.
  set (X := map (powers degree) xs).
  assert (HX : length X = length xs) by apply length_map.
  rewrite scale_cols_zero by (rewrite <- HX; apply transpose_rect).
  unfold qmatmul, matmul. rewrite map_map.
  rewrite (map_ext _ (fun _ => repeat 0 (degree + 1))).
  - now rewrite map_const_repeat, transpose_length.
  - intros r. apply qvecmat_zero_l, rect_powers.
Qed.

Lemma find_pivot_none c todo :
  (forall r, In r todo -> nth c (fst r) 0 = 0) -> find_pivot c todo = None.
Proof.
  induction todo as [|r t IH]; simpl; intros H; auto.
  rewrite (H r) by auto. replace (Qceqb 0 0) with true by reflexivity.
  rewrite IH; auto.
Qed.

Lemma gauss_jordan_zero n p :
  (0 < n)%nat -> gauss_jordan (repeat (repeat 0 p) n) = None.
Proof.
  intros Hn. unfold gauss_jordan. rewrite repeat_length.
  destruct n; [lia|]. cbn [gj].
  rewrite find_pivot_none; auto.
  intros [a b] Hr. apply in_combine_l in Hr. apply repeat_spec in Hr.
  simpl. subst a. clear. destruct p; reflexivity.
Qed.

Lemma row_betas_zero degree ncols xs ys :
  row_betas degree ncols (map (powers degree) xs) ys (map Num (repeat 0 (length xs)))
  = Raise LinAlgError.
Proof.
  unfold row_betas. rewrite row_normal_zero, inv_lift.
  rewrite gauss_jordan_zero by lia. reflexivity.
Qed.

(** All selected distances equal and positive: every weight is 0. *)
Lemma row_weights_all_max d :
  Qcmaxl d <> 0 -> (forall v, In v d -> v = Qcmaxl d) ->
  row_weights d = map Num (repeat 0 (length d)).
Proof.
  intros Hm Hall. rewrite row_weights_finite by exact Hm. f_equal.
  rewrite <- map_const_repeat. apply map_ext_in. intros v Hv.
  rewrite (Hall v Hv).
  replace (Qcmaxl d / Qcmaxl d) with 1 by (field; exact Hm).
  apply tricubeq_1.
Qed.

Lemma row_fit_zero degree k x y e :
  Qcmaxl (row_sel k x e) <> 0 ->
  (forall v, In v (row_sel k x e) -> v = Qcmaxl (row_sel k x e)) ->
  row_fit degree k x y e = Raise LinAlgError.
Proof.
  intros Hm Hall. unfold row_fit.
  rewrite row_weights_all_max by assumption.
  rewrite row_sel_length, <- (row_inds_length k x e),
    <- (gather_length x (row_inds k x e)).
  apply row_betas_zero.
Qed.

(** ** NaN coefficients give NaN predictions *)

Lemma vsum_repeat_NaN n :
  (0 < n)%nat -> vsum (Num 0) vadd (repeat NaN n) = NaN.
Proof. destruct n; [lia|]. reflexivity. Qed.

Lemma powers_length degree e : length (powers degree e) = (degree + 1)%nat.
Proof. unfold powers. now rewrite length_map, length_seq. Qed.

Lemma entry0_hd_repeat p : (0 < p)%nat -> entry0 (hd [] (repeat [NaN] p)) = NaN.
Proof. destruct p; [lia|]. reflexivity. Qed.

Lemma map_entry0_repeat p : map entry0 (repeat [NaN] p) = repeat NaN p.
Proof. now rewrite map_repeat. Qed.

Lemma predict_rows_NaN degree ev :
  predict_rows degree ev (map (fun _ => repeat [NaN] (degree + 1)) ev)
  = Ok (map (powers degree) ev, map (fun _ => NaN) ev).
Proof.
  unfold predict_rows, squeeze.
  assert (Hp : (0 < degree + 1)%nat) by lia.
  destruct (length ev =? 1)%nat eqn:Em; destruct (degree + 1 =? 1)%nat eqn:Ep.
  - destruct ev as [|e [|e' ev]]; try discriminate.
    cbn [map hd]. rewrite entry0_hd_repeat by lia. cbn [broadcast_mul bind lift map].
    do 3 f_equal. rewrite map_map, (map_ext _ (fun _ => NaN)) by reflexivity.
    rewrite map_const_repeat, powers_length. now apply vsum_repeat_NaN.
  - destruct ev as [|e [|e' ev]]; try discriminate.
    cbn [map hd]. rewrite map_entry0_repeat. cbn [broadcast_mul].
    rewrite repeat_length, Nat.eqb_refl. cbn [bind lift map]. do 3 f_equal.
    rewrite map2_repeat_NaN_l; [now apply vsum_repeat_NaN|reflexivity|].
    now rewrite length_map, powers_length.
  - rewrite map_map.
    rewrite (map_ext _ (fun _ => NaN)) by (intros; now apply entry0_hd_repeat).
    cbn [broadcast_mul]. rewrite length_map.
    apply Nat.eqb_eq in Ep. rewrite Ep, Em. cbn [Nat.eqb bind]. f_equal. f_equal.
    unfold lift. rewrite !map_map. apply map_ext_in. intros e He.
    rewrite map_map, (map_ext _ (fun _ => NaN)) by reflexivity.
    rewrite map_const_repeat. apply vsum_repeat_NaN.
    destruct ev; [contradiction|simpl; lia].
  - rewrite map_map.
    rewrite (map_ext _ (fun _ => repeat NaN (degree + 1)))
      by (intros; apply map_entry0_repeat).
    cbn [broadcast_mul bind]. f_equal. f_equal.
    unfold lift. rewrite map_map, map2_map_map, map_map.
    apply map_ext. intros e.
    rewrite map2_repeat_NaN_l; [now apply vsum_repeat_NaN|reflexivity|].
    now rewrite length_map, powers_length.
Qed.

(** ** Degenerate neighbourhoods

    When every row with a positive maximum distance has a singular normal
    matrix, the call raises LinAlgError as soon as there is such a row, and
    otherwise every prediction is NaN. *)

Lemma loess_yhat_sorted x y eval_x degree span :
  (length x <= length y)%nat ->
  loess_yhat x y eval_x degree span =
  let k := ceil_span span (length x) in
  if (slice_stop k (length x) =? 0)%nat then Raise ValueError
  else B <- mapM (row_fit degree k (sorted_x x) (sorted_y x y)) (eval_points x eval_x) ;;
       predict_rows degree (eval_points x eval_x) B.
Proof.
  intros H. rewrite loess_yhat_rows, sort_by_x_ok by exact H.
  cbn [bind fst snd]. cbv zeta. rewrite sorted_x_length. reflexivity.
Qed.

Lemma loess_yhat_degenerate x y eval_x degree span :
  (length x <= length y)%nat ->
  (0 < slice_stop (ceil_span span (length x)) (length x))%nat ->
  (forall e, In e (eval_points x eval_x) ->
             Qcmaxl (row_sel (ceil_span span (length x)) (sorted_x x) e) <> 0 ->
             row_fit degree (ceil_span span (length x)) (sorted_x x) (sorted_y x y) e
             = Raise LinAlgError) ->
  (Exists (fun e => Qcmaxl (row_sel (ceil_span span (length x)) (sorted_x x) e) <> 0)
          (eval_points x eval_x) ->
   loess_yhat x y eval_x degree span = Raise LinAlgError)
  /\ (Forall (fun e => Qcmaxl (row_sel (ceil_span span (length x)) (sorted_x x) e) = 0)
             (eval_points x eval_x) ->
      loess_yhat x y eval_x degree span
      = Ok (map (powers degree) (eval_points x eval_x),
            map (fun _ => NaN) (eval_points x eval_x))).
Proof.
  intros Hlen Hn Hsing.
  rewrite loess_yhat_sorted by exact Hlen. cbv zeta.
  destruct (slice_stop (ceil_span span (length x)) (length x) =? 0)%nat eqn:E;
    [apply Nat.eqb_eq in E; lia|].
  set (k := ceil_span span (length x)) in *.
  assert (Hn' : (0 < slice_stop k (length (sorted_x x)))%nat).
  { unfold sorted_x. now rewrite sorted_x_length. }
  split.
  - intros Hex. rewrite (mapM_Raise _ _ LinAlgError); [reflexivity| |].
    + intros e He.
      destruct (Qc_eq_dec (Qcmaxl (row_sel k (sorted_x x) e)) 0) as [Hz|Hz].
      * right. eexists. apply row_fit_NaN; assumption.
      * left. now apply Hsing.
    + apply Exists_exists in Hex as [e [He Hz]]. exists e. split; auto.
  - intros Hall. rewrite Forall_forall in Hall.
    rewrite (mapM_all_Ok _ (fun _ => repeat [NaN] (degree + 1))).
    + cbn [bind]. apply predict_rows_NaN.
    + intros e He. apply row_fit_NaN; auto.
Qed.

Lemma row_sel_nonneg k x e v : In v (row_sel k x e) -> 0 <= v.
Proof.
  unfold row_sel, gather. intros H. apply in_map_iff in H as [i [<- Hi]].
  apply row_inds_lt in Hi. unfold row_dists.
  rewrite (nth_indep _ 0 (Qcabs (e - 0))) by (rewrite length_map; lia).
  rewrite (map_nth (fun xi => Qcabs (e - xi))). apply Qcabs_nonneg.
Qed.


Lemma slice_stop_one n : (1 <= n)%nat -> slice_stop 1 n = 1%nat.
Proof. intros H. unfold slice_stop. simpl. lia. Qed.

Lemma length_one {A : Type} (l : list A) : length l = 1%nat -> exists a, l = [a].
Proof. destruct l as [|a [|b l]]; try discriminate. eauto. Qed.

Lemma Qcmaxl_single d : Qcmaxl [d] = d.
Proof. reflexivity. Qed.

(** C10. With k = ceil(span * n) = 1 every evaluation point has a single
    selected distance d: its normalised distance is 1 and its weight 0 when
    d > 0, both are NaN when d = 0, and the normal matrix is all zero or all
    NaN.  The pipeline then fails in the batched inversion (as soon as one
    d is positive) or computes NaN at every evaluation point; no finite
    prediction is ever returned. *)
Theorem C10_single_neighbour (x y : list Qc) (eval_x : option (list Qc))
        (degree : nat) (span : Qc) :
  length x = length y -> (1 <= length x)%nat ->
  ceil_span span (length x) = 1%Z ->
  (forall e, In e (eval_points x eval_x) ->
     exists d, row_sel 1 (sorted_x x) e = [d]
       /\ ((0 < d /\ vdiv d (Qcmaxl [d]) = Num 1 /\ row_weights [d] = [Num 0]
            /\ row_normal degree (map (powers degree) (gather (sorted_x x) (row_inds 1 (sorted_x x) e)))
                          (row_weights [d])
               = lift (repeat (repeat 0 (degree + 1)) (degree + 1)))
           \/ (d = 0 /\ vdiv d (Qcmaxl [d]) = NaN /\ row_weights [d] = [NaN]
               /\ row_normal degree (map (powers degree) (gather (sorted_x x) (row_inds 1 (sorted_x x) e)))
                             (row_weights [d])
                  = repeat (repeat NaN (degree + 1)) (degree + 1))))
  /\ (loess_yhat x y eval_x degree span = Raise LinAlgError
      \/ loess_yhat x y eval_x degree span
         = Ok (map (powers degree) (eval_points x eval_x),
               map (fun _ => NaN) (eval_points x eval_x)))
  /\ (forall out, loess x y eval_x degree span = Ok out ->
        match out with
        | Values l => Forall (fun v => v = NaN) l
        | Pairs l => Forall (fun p => snd p = NaN) l
        end).
Proof.
  intros Hlen Hn Hk.
  assert (Hs : slice_stop 1 (length (sorted_x x)) = 1%nat).
  { unfold sorted_x. rewrite sorted_x_length. now apply slice_stop_one. }
  assert (Hrow : forall e, exists d, row_sel 1 (sorted_x x) e = [d] /\ 0 <= d
                   /\ length (gather (sorted_x x) (row_inds 1 (sorted_x x) e)) = 1%nat).
  { intros e. destruct (length_one (row_sel 1 (sorted_x x) e)) as [d Hd].
    - now rewrite row_sel_length.
    - exists d. split; [exact Hd|]. split.
      + apply (row_sel_nonneg 1 (sorted_x x) e). rewrite Hd. now left.
      + now rewrite gather_length, row_inds_length. }
  assert (Hyhat : loess_yhat x y eval_x degree span = Raise LinAlgError
      \/ loess_yhat x y eval_x degree span
         = Ok (map (powers degree) (eval_points x eval_x),
               map (fun _ => NaN) (eval_points x eval_x))).
  { destruct (loess_yhat_degenerate x y eval_x degree span) as [Hex Hall].
    - lia.
    - rewrite Hk. rewrite slice_stop_one; lia.
    - rewrite Hk. intros e He Hz. apply row_fit_zero; [exact Hz|].
      destruct (Hrow e) as [d [Hd _]]. rewrite Hd. intros v [<-|[]]. reflexivity.
    - rewrite Hk in Hex, Hall.
      destruct (Forall_Exists_dec
                  (fun e => Qcmaxl (row_sel 1 (sorted_x x) e) = 0)
                  (fun e => Qc_eq_dec _ 0) (eval_points x eval_x)) as [F|E].
      + right. now apply Hall.
      + left. now apply Hex. }
  split; [|split].
  - intros e He. destruct (Hrow e) as [d [Hd [Hpos Hlen1]]]. exists d. split; [exact Hd|].
    rewrite Qcmaxl_single.
    destruct (Qc_eq_dec d 0) as [->|Hz].
    + right. split; [reflexivity|]. split; [reflexivity|]. split; [reflexivity|].
      change (row_weights [0]) with (repeat NaN 1).
      replace (repeat NaN 1)
        with (repeat NaN (length (gather (sorted_x x) (row_inds 1 (sorted_x x) e))))
        by now rewrite Hlen1.
      apply row_normal_NaN. intros E. rewrite E in Hlen1. discriminate.
    + left. assert (Hw : row_weights [d] = [Num 0]).
      { rewrite (row_weights_all_max [d]); [reflexivity|exact Hz|].
        intros v [<-|[]]. reflexivity. }
      split; [|split; [|split]].
      * destruct (Qcle_lt_or_eq _ _ Hpos) as [H|H]; [exact H|congruence].
      * rewrite vdiv_nonzero by exact Hz. f_equal. field. exact Hz.
      * exact Hw.
      * rewrite Hw.
        replace [Num 0]
          with (map Num (repeat 0 (length (gather (sorted_x x) (row_inds 1 (sorted_x x) e)))))
          by now rewrite Hlen1.
        apply row_normal_zero.
  - exact Hyhat.
  - intros out Hout. unfold loess in Hout.
    destruct Hyhat as [Hy|Hy]; rewrite Hy in Hout; [discriminate|].
    cbn [bind] in Hout.
    destruct eval_x as [ev|].
    + inversion Hout; subst. rewrite Forall_map. apply Forall_forall. reflexivity.
    + unfold column1 in Hout. destruct (1 <? degree + 1)%nat; [|discriminate].
      cbn [bind] in Hout. inversion Hout; subst.
      apply Forall_forall. intros [a b] Hin. apply in_combine_r in Hin.
      apply in_map_iff in Hin as [? [H _]]. now simpl.
Qed.

Lemma C10_single_neighbour_witness :
  loess_yhat bug_x bug_y (Some [qz 1; qfrac 1 2]) 1 (qfrac 1 4) = Raise LinAlgError
  \/ loess_yhat bug_x bug_y (Some [qz 1; qfrac 1 2]) 1 (qfrac 1 4)
     = Ok (map (powers 1) [qz 1; qfrac 1 2], map (fun _ => NaN) [qz 1; qfrac 1 2]).
Proof.
  refine (proj1 (proj2 (C10_single_neighbour bug_x bug_y
                          (Some [qz 1; qfrac 1 2]) 1 (qfrac 1 4) _ _ _))).
  - reflexivity.
  - simpl. lia.
  - reflexivity.
Defined.

(** ** Degree 0 with the default evaluation points *)

Lemma mapM_exists_Ok {A B : Type} (f : A -> result B) l :
  (forall a, In a l -> exists b, f a = Ok b) -> exists r, mapM f l = Ok r.
Proof.
  induction l as [|a t IH]; simpl; intros H; [eauto|].
  destruct (H a (or_introl eq_refl)) as [b Hb]. rewrite Hb.
  destruct IH as [r Hr]; [auto|]. rewrite Hr. simpl. eauto.
Qed.

Lemma argsort_head l :
  l <> [] ->
  exists i0 rest, argsort l = i0 :: rest
    /\ forall i, (i < length l)%nat -> nth i0 l 0 <= nth i l 0.
Proof.
  intros Hl. destruct (argsort l) as [|i0 rest] eqn:E.
  - apply (f_equal (@length nat)) in E. rewrite argsort_length in E.
    destruct l; [contradiction|discriminate].
  - exists i0, rest. split; [reflexivity|]. intros i Hi.
    assert (Hin : In i (argsort l)).
    { apply (Permutation_in _ (Permutation_sym (argsort_perm l))).
      apply in_seq. lia. }
    generalize (argsort_sorted l). rewrite E in *. intros Hs.
    inversion Hs as [|? ? _ Hall]; subst.
    destruct Hin as [->|Hin]; [apply Qcle_refl|].
    rewrite Forall_forall in Hall. exact (Hall i Hin).
Qed.

Lemma row_sel_head_zero k x e :
  In e x -> (0 < slice_stop k (length x))%nat ->
  exists rest, row_sel k x e = 0 :: rest.
Proof.
  intros He Hn. unfold row_sel, row_inds, slice_to.
  rewrite argsort_length, row_dists_length.
  destruct (argsort_head (row_dists x e)) as [i0 [rest [E Hmin]]].
  - destruct x; [contradiction|discriminate].
  - rewrite E. destruct (slice_stop k (length x)) as [|n'] eqn:En; [lia|].
    cbn [firstn gather map]. eexists. f_equal.
    apply Qcle_antisym.
    + destruct (In_nth x e 0 He) as [j [Hj Hx]].
      rewrite row_dists_length in Hmin. specialize (Hmin j Hj).
      replace (nth j (row_dists x e) 0) with 0 in Hmin; [exact Hmin|].
      unfold row_dists.
      rewrite (nth_indep _ 0 (Qcabs (e - 0))) by (rewrite length_map; lia).
      rewrite (map_nth (fun xi => Qcabs (e - xi))), Hx.
      replace (e - e) with 0 by ring. symmetry. apply Qcabs_pos, Qcle_refl.
    + apply (row_sel_nonneg k x e). unfold row_sel, row_inds, slice_to.
      rewrite argsort_length, row_dists_length, E, En. now left.
Qed.

Lemma qsum_nonneg l : Forall (fun v => 0 <= v) l -> 0 <= qsum l.
Proof.
  induction 1 as [|a t Ha _ IH]; simpl; [apply Qcle_refl|].
  replace 0 with (0 + 0) by ring. now apply Qcplus_le_compat.
Qed.

Lemma qvecmat_ones wq (xs : list Qc) :
  length xs = length wq ->
  qvecmat 1 wq (map (fun _ => [1]) xs) = [qsum wq].
Proof.
  unfold qvecmat. revert xs. induction wq as [|c wq IH]; intros [|v xs] H;
    try discriminate; [reflexivity|].
  cbn [map]. rewrite vecmat_cons, IH by (simpl in H; lia).
  unfold vec_add, vec_scale. cbn [map map2 qsum fold_right].
  now rewrite Qcmult_1_r.
Qed.

Lemma map2_ones_l wq (xs : list Qc) :
  length xs = length wq ->
  map2 Qcmult (map (fun _ => 1) xs) wq = wq.
Proof.
  revert xs. induction wq as [|c wq IH]; intros [|v xs] H; try discriminate; auto.
  cbn [map map2]. rewrite IH by (simpl in H; lia). now rewrite Qcmult_1_l.
Qed.

Lemma row_normal_degree0 xs wq :
  length xs = length wq ->
  row_normal 0 (map (powers 0) xs) (map Num wq) = lift [[qsum wq]].
Proof.
  intros H. unfold row_normal. rewrite scale_cols_lift, vmatmul_lift. f_equal.
  rewrite (map_ext (powers 0) (fun _ => [1])) by reflexivity.
  unfold transpose, scale_cols, qmatmul, matmul. cbn [Nat.add seq map].
  rewrite map_map. cbn [nth]. unfold vec_mul.
  rewrite map2_ones_l by exact H.
  f_equal. now apply qvecmat_ones.
Qed.

Lemma gauss_jordan_1x1 s : s <> 0 -> gauss_jordan [[s]] = Some [[/ s * 1]].
Proof.
  intros H. unfold gauss_jordan. cbn [length gj identity seq map combine find_pivot fst nth].
  apply Qceqb_neq in H. rewrite H. reflexivity.
Qed.

Lemma row_fit_degree0_self k x y e :
  In e x -> (0 < slice_stop k (length x))%nat ->
  exists b, row_fit 0 k x y e = Ok b.
Proof.
  intros He Hn.
  destruct (Qc_eq_dec (Qcmaxl (row_sel k x e)) 0) as [Hz|Hz].
  - eexists. now apply row_fit_NaN.
  - unfold row_fit, row_betas.
    rewrite row_weights_finite by exact Hz.
    rewrite row_normal_degree0
      by now rewrite gather_length, row_inds_length, length_map, row_sel_length.
    rewrite inv_lift.
    destruct (row_sel_head_zero k x e He Hn) as [rest Hr].
    rewrite gauss_jordan_1x1; [cbn [bind]; eauto|].
    rewrite Hr. cbn [map qsum fold_right].
    replace (0 / Qcmaxl (0 :: rest)) with 0 by (unfold Qcdiv; ring).
    rewrite tricubeq_0.
    apply not_eq_sym, Qclt_not_eq.
    apply (Qclt_le_trans _ (1 + 0)); [reflexivity|].
    apply Qcplus_le_compat; [apply Qcle_refl|].
    apply qsum_nonneg. rewrite Forall_map. apply Forall_forall.
    intros v _. apply clipq_bounds.
Qed.

Lemma predict_rows_degree0 ev B :
  length B = length ev ->
  exists yhat, predict_rows 0 ev B = Ok (map (powers 0) ev, yhat).
Proof.
  intros H. unfold predict_rows, squeeze. cbn [Nat.add Nat.eqb].
  destruct (length ev =? 1)%nat eqn:E.
  - cbn [broadcast_mul bind]. eauto.
  - cbn [broadcast_mul]. rewrite length_map, H, E. cbn [Nat.eqb bind]. eauto.
Qed.

(** C9. For equal-length [x], [y] with at least one point and a positive
    span, degree 0 with [eval_x] absent always fails with the IndexError of
    [eval_x[:, 1]]: the evaluation design matrix has the single column 0.
    No pair sequence is returned. *)
Theorem C9_degree0_pairs_index_error (x y : list Qc) (span : Qc) :
  length x = length y -> (1 <= length x)%nat -> 0 < span ->
  loess x y None 0 span = Raise IndexError.
Proof.
  intros Hlen Hn Hs. unfold loess. rewrite loess_yhat_sorted by lia. cbv zeta.
  assert (Hk : (0 < slice_stop (ceil_span span (length x)) (length x))%nat).
  { apply slice_stop_pos; [apply ceil_span_pos|]; auto. }
  destruct (slice_stop (ceil_span span (length x)) (length x) =? 0)%nat eqn:E;
    [apply Nat.eqb_eq in E; lia|].
  cbn [eval_points].
  destruct (mapM_exists_Ok
              (row_fit 0 (ceil_span span (length x)) (sorted_x x) (sorted_y x y))
              (sorted_x x)) as [B HB].
  { intros e He. apply row_fit_degree0_self; [exact He|].
    unfold sorted_x. now rewrite sorted_x_length. }
  rewrite HB. cbn [bind].
  destruct (predict_rows_degree0 (sorted_x x) B) as [yhat Hy].
  { now apply mapM_length in HB. }
  rewrite Hy. reflexivity.
Qed.

Lemma C9_degree0_pairs_index_error_witness :
  loess (map qz [3;1;2]%Z) (map qz [30;10;20]%Z) None 0 (qfrac 3 4) = Raise IndexError.
Proof.
  apply C9_degree0_pairs_index_error.
  - reflexivity.
  - simpl. lia.
  - reflexivity.
Defined.

(** ** Shape of the coefficients *)

Lemma find_pivot_length c todo p rest :
  find_pivot c todo = Some (p, rest) -> length todo = S (length rest).
Proof.
  revert p rest. induction todo as [|r t IH]; intros p rest H; simpl in H; [discriminate|].
  destruct (Qceqb (nth c (fst r) 0) 0).
  - destruct (find_pivot c t) as [[p' rest']|] eqn:E; [|discriminate].
    inversion H; subst. simpl. f_equal. eapply IH. reflexivity.
  - inversion H; subst. reflexivity.
Qed.

Lemma gj_length steps c done todo r :
  gj steps c done todo = Some r -> length r = (length done + steps)%nat.
Proof.
  revert c done todo r. induction steps as [|s IH]; intros c done todo r H; simpl in H.
  - inversion H; subst. lia.
  - destruct (find_pivot c todo) as [[p rest]|]; [|discriminate].
    apply IH in H. rewrite H, length_app, length_map. simpl. lia.
Qed.

Lemma gauss_jordan_length A B : gauss_jordan A = Some B -> length B = length A.
Proof.
  unfold gauss_jordan. destruct (gj _ _ _ _) eqn:E; [|discriminate].
  intros H. inversion H; subst. rewrite length_map.
  apply gj_length in E. exact E.
Qed.

Lemma lift_length A : length (lift A) = length A.
Proof. apply length_map. Qed.

Lemma inv_length A B : inv A = Ok B -> length B = length A.
Proof.
  unfold inv. destruct (finite_matrix A) as [Aq|] eqn:E.
  - destruct (gauss_jordan Aq) eqn:G; [|discriminate].
    intros H. inversion H; subst. rewrite lift_length.
    apply gauss_jordan_length in G. rewrite G.
    unfold finite_matrix in E. clear -E. revert Aq E.
    induction A as [|r A IH]; simpl; intros Aq E.
    + now inversion E.
    + destruct (all_some (map num_of r)); [|discriminate].
      destruct (all_some (map _ A)) eqn:EA; [|discriminate].
      inversion E; subst. simpl. f_equal. now apply IH.
  - intros H. inversion H; subst. apply length_map.
Qed.

Lemma row_normal_length degree X w : length (row_normal degree X w) = (degree + 1)%nat.
Proof.
  unfold row_normal, vmatmul, scale_cols, lift.
  now rewrite matmul_length, !length_map, transpose_length.
Qed.

Lemma row_betas_length degree ncols X ys w b :
  row_betas degree ncols X ys w = Ok b -> length b = (degree + 1)%nat.
Proof.
  unfold row_betas. destruct (inv _) as [iA|] eqn:E; [|discriminate].
  cbn [bind]. intros H. inversion H; subst.
  unfold vmatmul, scale_cols. rewrite matmul_length, length_map, matmul_length.
  apply inv_length in E. now rewrite E, row_normal_length.
Qed.

Lemma row_fit_length degree k x y e b :
  row_fit degree k x y e = Ok b -> length b = (degree + 1)%nat.
Proof. apply row_betas_length. Qed.

(** ** Degree at least 1: the prediction is the row's dot product *)

Lemma map_map2 {A B C D : Type} (g : C -> D) (f : A -> B -> C) l l' :
  map g (map2 f l l') = map2 (fun a b => g (f a b)) l l'.
Proof. revert l'. induction l; destruct l'; simpl; congruence. Qed.

Lemma map2_map_fst {A B C D : Type} (f : C -> B -> D) (h : A -> C) u l :
  map2 f (map h u) l = map2 (fun a b => f (h a) b) u l.
Proof. revert l. induction u; destruct l; simpl; congruence. Qed.

Lemma predict_rows_degree_pos degree ev B :
  (1 <= degree)%nat -> length B = length ev ->
  (forall b, In b B -> length b = (degree + 1)%nat) ->
  predict_rows degree ev B
  = Ok (map (powers degree) ev, map2 (row_dot degree) B ev).
Proof.
  intros Hd HB Hb. unfold predict_rows, squeeze.
  assert (Ep : (degree + 1 =? 1)%nat = false) by (apply Nat.eqb_neq; lia).
  rewrite Ep. destruct (length ev =? 1)%nat eqn:Em.
  - destruct ev as [|e [|e' ev]]; try discriminate.
    destruct B as [|b [|b' B]]; try discriminate.
    cbn [hd broadcast_mul]. rewrite length_map, (Hb b) by now left.
    rewrite Nat.eqb_refl. reflexivity.
  - cbn [broadcast_mul bind]. f_equal. f_equal.
    unfold lift. rewrite map_map2, map2_map_fst, !map2_map_snd.
    reflexivity.
Qed.

Lemma loess_yhat_degree_pos x y eval_x degree span xs ys E yhat :
  (1 <= degree)%nat ->
  sort_by_x x y = Ok (xs, ys) ->
  loess_yhat x y eval_x degree span = Ok (E, yhat) ->
  let ev := match eval_x with None => xs | Some e => e end in
  E = map (powers degree) ev
  /\ exists B, mapM (row_fit degree (ceil_span span (length xs)) xs ys) ev = Ok B
       /\ yhat = map2 (row_dot degree) B ev.
Proof.
  intros Hd Hs H ev. rewrite loess_yhat_rows, Hs in H.
  cbn [bind fst snd] in H. cbv zeta in H. fold ev in H.
  destruct (slice_stop _ _ =? 0)%nat; [discriminate|].
  destruct (mapM _ ev) as [B|] eqn:EB; [|discriminate].
  cbn [bind] in H.
  rewrite predict_rows_degree_pos in H.
  - inversion H; subst. split; [reflexivity|]. exists B. split; reflexivity.
  - exact Hd.
  - now apply mapM_length in EB.
  - intros b Hb. destruct (In_nth B b [] Hb) as [j [Hj Hnth]].
    assert (Hlen := mapM_length _ _ _ EB).
    pose proof (mapM_nth _ _ _ j 0 [] EB ltac:(lia)) as Hrow.
    rewrite Hnth in Hrow. now apply row_fit_length in Hrow.
Qed.

(** ** What a successful call went through *)

Lemma loess_yhat_Ok_inv x y eval_x degree span r :
  loess_yhat x y eval_x degree span = Ok r ->
  exists xs ys B,
    sort_by_x x y = Ok (xs, ys)
    /\ xs = sorted_x x
    /\ slice_stop (ceil_span span (length xs)) (length xs) <> 0%nat
    /\ mapM (row_fit degree (ceil_span span (length xs)) xs ys)
            (match eval_x with None => xs | Some e => e end) = Ok B
    /\ predict_rows degree (match eval_x with None => xs | Some e => e end) B = Ok r.
Proof.
  intros H. rewrite loess_yhat_rows in H.
  destruct (sort_by_x x y) as [[xs ys]|] eqn:Es; [|discriminate].
  cbn [bind fst snd] in H. cbv zeta in H.
  destruct (slice_stop _ _ =? 0)%nat eqn:E; [discriminate|].
  destruct (mapM _ _) as [B|] eqn:EB; [|discriminate].
  cbn [bind] in H. exists xs, ys, B. repeat split; auto.
  - unfold sort_by_x in Es. destruct (take y (argsort x)); [|discriminate].
    cbn [bind] in Es. now inversion Es.
  - now apply Nat.eqb_neq.
Qed.


Lemma predict_rows_length degree ev B E yhat :
  length B = length ev ->
  predict_rows degree ev B = Ok (E, yhat) ->
  E = map (powers degree) ev /\ length yhat = length ev.
Proof.
  intros HB. unfold predict_rows.
  destruct (broadcast_mul _ _ _) as [prod|] eqn:Eb; [|discriminate].
  cbn [bind]. intros H. inversion H; subst. split; [reflexivity|].
  rewrite length_map.
  assert (HE : length (lift (map (powers degree) ev)) = length ev)
    by (unfold lift; now rewrite !length_map).
  unfold broadcast_mul in Eb.
  destruct (squeeze _ _ _) as [v|l|b] eqn:Esq.
  - inversion Eb; subst. now rewrite length_map.
  - destruct (length l =? degree + 1)%nat;
      [|destruct (degree + 1 =? 1)%nat; [|destruct (length l =? 1)%nat]];
      inversion Eb; subst; now rewrite length_map.
  - inversion Eb; subst. rewrite map2_length, HE.
    unfold squeeze in Esq.
    destruct (length ev =? 1)%nat, (degree + 1 =? 1)%nat; try discriminate.
    inversion Esq; subst. rewrite length_map, HB. apply Nat.min_id.
Qed.




(** * Linear algebra over the rationals *)

Lemma qvecmat_cons p c r b B :
  qvecmat p (c :: r) (b :: B) = qadd (qscale c b) (qvecmat p r B).
Proof. reflexivity. Qed.

Lemma qvecmat_nil_l p B : qvecmat p [] B = repeat 0 p.
Proof. reflexivity. Qed.

Lemma qvecmat_nil_r p r : qvecmat p r [] = repeat 0 p.
Proof. apply vecmat_nil_r. Qed.

Lemma qvecmat_length p r B : rect p B -> length (qvecmat p r B) = p.
Proof. apply vecmat_length. Qed.



Lemma qscale_qadd c u v : qscale c (qadd u v) = qadd (qscale c u) (qscale c v).
Proof.
  unfold qscale, qadd, vec_scale, vec_add. revert v.
  induction u as [|x u IH]; intros [|y v]; simpl; auto.
  rewrite IH. f_equal. ring.
Qed.



Lemma qscale_qscale a b r : qscale (a * b) r = qscale a (qscale b r).
Proof.
  unfold qscale, vec_scale. rewrite map_map. apply map_ext. intros x. ring.
Qed.

Lemma qscale_zeros c p : qscale c (repeat 0 p) = repeat 0 p.
Proof.
  unfold qscale, vec_scale. induction p; simpl; auto. rewrite IHp. f_equal. ring.
Qed.




Lemma qadd_zeros_r u : qadd u (repeat 0 (length u)) = u.
Proof.
  unfold qadd, vec_add. induction u; simpl; auto. rewrite IHu. f_equal. ring.
Qed.



Lemma qadd_length u v : length (qadd u v) = Nat.min (length u) (length v).
Proof. apply map2_length. Qed.


Lemma qscale_length c v : length (qscale c v) = length v.
Proof. apply length_map. Qed.



Lemma qvecmat_qscale p c u B :
  qvecmat p (qscale c u) B = qscale c (qvecmat p u B).
Proof.
  revert u. induction B as [|b B IH]; intros u.
  - rewrite !qvecmat_nil_r. now rewrite qscale_zeros.
  - destruct u as [|x u].
    + change (qscale c []) with (@nil Qc). rewrite !qvecmat_nil_l.
      now rewrite qscale_zeros.
    + change (qscale c (x :: u)) with ((c * x) :: qscale c u).
      rewrite !qvecmat_cons, IH, qscale_qadd, qscale_qscale. reflexivity.
Qed.









(** ** Gauss-Jordan computes a left inverse *)

Section GaussJordan.
Variable n : nat.
Variable A0 : list (list Qc).
Hypothesis A0_rect : rect n A0.
Hypothesis A0_length : length A0 = n.








End GaussJordan.



(** ** Finite rows, computed in the rationals *)

Lemma row_normal_finite degree X wq :
  row_normal degree X (map Num wq) = lift (qnormal degree X wq).
Proof. unfold row_normal, qnormal. now rewrite scale_cols_lift, vmatmul_lift. Qed.

Lemma row_betas_finite degree ncols X ys wq :
  row_betas degree ncols X ys (map Num wq)
  = match gauss_jordan (qnormal degree X wq) with
    | Some Bq =>
        Ok (lift (qmatmul 1
                    (scale_cols Qcmult (qmatmul ncols Bq (transpose 0 (degree + 1) X)) wq)
                    (as_col ys)))
    | None => Raise LinAlgError
    end.
Proof.
  unfold row_betas. rewrite row_normal_finite, inv_lift.
  destruct (gauss_jordan _) as [Bq|]; [|reflexivity].
  cbn [bind]. rewrite vmatmul_lift, scale_cols_lift.
  assert (Hy : map (fun v => [Num v]) ys = lift (as_col ys))
    by (unfold lift, as_col; rewrite map_map; reflexivity).
  now rewrite Hy, vmatmul_lift.
Qed.

Lemma map2_nil_r {A B C : Type} (f : A -> B -> C) l : map2 f l [] = [].
Proof. now destruct l. Qed.

Lemma qmul_qadd u v w : qmul (qadd u v) w = qadd (qmul u w) (qmul v w).
Proof.
  unfold qmul, qadd, vec_mul, vec_add. revert v w.
  induction u as [|x u IH]; intros [|y v] [|z w]; simpl;
    rewrite ?map2_nil_r; auto.
  rewrite IH. f_equal. ring.
Qed.

Lemma qmul_qscale c u w : qmul (qscale c u) w = qscale c (qmul u w).
Proof.
  unfold qmul, qscale, vec_mul, vec_scale. revert w.
  induction u as [|x u IH]; intros [|z w]; simpl; auto.
  rewrite IH. f_equal. ring.
Qed.

Lemma qmul_zeros_l w : qmul (repeat 0 (length w)) w = repeat 0 (length w).
Proof.
  unfold qmul, vec_mul. induction w; simpl; auto. rewrite IHw. f_equal. ring.
Qed.

(** Column scaling commutes with multiplication on the left. *)
Lemma qvecmat_scale_cols r B w :
  qmul (qvecmat (length w) r B) w = qvecmat (length w) r (scale_cols Qcmult B w).
Proof.
  revert r. induction B as [|b B IH]; intros r.
  - cbn [scale_cols map]. rewrite !qvecmat_nil_r. apply qmul_zeros_l.
  - destruct r as [|x r].
    + rewrite !qvecmat_nil_l. apply qmul_zeros_l.
    + cbn [scale_cols map]. fold (scale_cols Qcmult B w). fold (qmul b w).
      rewrite !qvecmat_cons, qmul_qadd, qmul_qscale, IH. reflexivity.
Qed.

Lemma scale_cols_qmatmul A B w :
  scale_cols Qcmult (qmatmul (length w) A B) w
  = qmatmul (length w) A (scale_cols Qcmult B w).
Proof.
  unfold qmatmul, matmul. unfold scale_cols at 1. rewrite map_map.
  apply map_ext. intros r. apply qvecmat_scale_cols.
Qed.

(** ** Exactly linear data *)


Lemma rect_as_col l : rect 1 (as_col l).
Proof. unfold rect, as_col. rewrite Forall_map. apply Forall_forall. reflexivity. Qed.








Lemma vsum_Num l : vsum (Num 0) vadd (map Num l) = Num (qsum l).
Proof. induction l; simpl; auto. now rewrite IHl. Qed.








(** ** Too few neighbours: the normal matrix is singular

    With fewer than degree + 1 neighbours, the polynomial that vanishes at
    all of them has degree at most [degree]; its coefficient vector is a
    non-zero vector annihilated by the normal matrix. *)

















(** ** The product, entry by entry, and diagonal matrices *)

Lemma nth_qadd j u v :
  (j < length u)%nat -> (j < length v)%nat ->
  nth j (qadd u v) 0 = nth j u 0 + nth j v 0.
Proof. intros. unfold qadd, vec_add. now apply nth_map2. Qed.

Lemma nth_qscale j c u : nth j (qscale c u) 0 = c * nth j u 0.
Proof.
  unfold qscale, vec_scale. replace 0 with (c * 0) at 1 by ring. apply map_nth.
Qed.

(** [(r B)[j] = sum_l r[l] * B[l][j]] *)
Lemma qvecmat_entry p r B j :
  rect p B -> (j < p)%nat ->
  nth j (qvecmat p r B) 0 = qsum (map2 Qcmult r (map (fun row => nth j row 0) B)).
Proof.
  intros HR Hj. revert r. induction B as [|b B IH]; intros r.
  - rewrite qvecmat_nil_r, nth_repeat. cbn [map]. now rewrite map2_nil_r.
  - destruct r as [|x r]; [rewrite qvecmat_nil_l; apply nth_repeat|].
    inversion HR as [|? ? Hb HR']; subst.
    rewrite qvecmat_cons, nth_qadd, nth_qscale, IH; auto.
    + now rewrite qscale_length.
    + now rewrite qvecmat_length.
Qed.

Lemma diag_lift wq : diag (map Num wq) = lift (qdiag wq).
Proof.
  unfold diag, qdiag, lift. rewrite length_map, map_map.
  apply map_ext_in. intros i Hi. apply in_seq in Hi. rewrite map_map.
  apply map_ext. intros j. destruct (i =? j)%nat; [|reflexivity].
  rewrite (nth_indep _ NaN (Num 0)) by (rewrite length_map; lia).
  apply map_nth.
Qed.

Lemma rect_qdiag wq : rect (length wq) (qdiag wq).
Proof.
  unfold rect, qdiag. rewrite Forall_map. apply Forall_forall. intros i _.
  now rewrite length_map, length_seq.
Qed.

Lemma qsum_none r (g : nat -> Qc) l :
  (forall i, In i l -> g i = 0) -> qsum (map2 Qcmult r (map g l)) = 0.
Proof.
  revert r. induction l as [|i l IH]; intros r H.
  - cbn [map]. now rewrite map2_nil_r.
  - destruct r as [|x r]; [reflexivity|].
    cbn [map map2 qsum fold_right]. fold (qsum (map2 Qcmult r (map g l))).
    rewrite H by now left. rewrite IH by (intros; apply H; now right). ring.
Qed.

Lemma qsum_pick r (f : nat -> Qc) s j :
  (j < length r)%nat ->
  qsum (map2 Qcmult r (map (fun i => if (i =? s + j)%nat then f i else 0)
                           (seq s (length r))))
  = nth j r 0 * f (s + j)%nat.
Proof.
  revert s j. induction r as [|x r IH]; intros s j Hj; [simpl in Hj; lia|].
  cbn [length seq map map2 qsum fold_right].
  destruct j as [|j].
  - rewrite Nat.add_0_r, Nat.eqb_refl.
    fold (qsum (map2 Qcmult r (map (fun i => if (i =? s)%nat then f i else 0)
                                   (seq (S s) (length r))))).
    rewrite qsum_none.
    + cbn [nth]. ring.
    + intros i Hi. apply in_seq in Hi.
      replace (i =? s)%nat with false by (symmetry; apply Nat.eqb_neq; lia).
      reflexivity.
  - replace (s =? s + S j)%nat with false by (symmetry; apply Nat.eqb_neq; lia).
    replace (s + S j)%nat with (S s + j)%nat by lia.
    fold (qsum (map2 Qcmult r (map (fun i => if (i =? S s + j)%nat then f i else 0)
                                   (seq (S s) (length r))))).
    rewrite IH by (simpl in Hj; lia). cbn [nth]. ring.
Qed.

(** Multiplying by [diag(w)] on the right scales the columns. *)
Lemma qvecmat_qdiag r wq :
  length r = length wq -> qvecmat (length wq) r (qdiag wq) = qmul r wq.
Proof.
  intros Hl. apply (nth_ext _ _ 0 0).
  - rewrite qvecmat_length by apply rect_qdiag.
    unfold qmul, vec_mul. rewrite map2_length, Hl. now rewrite Nat.min_id.
  - intros j Hj. rewrite qvecmat_length in Hj by apply rect_qdiag.
    rewrite qvecmat_entry by (auto; apply rect_qdiag).
    unfold qdiag. rewrite map_map.
    rewrite (map_ext_in _ (fun i => if (i =? 0 + j)%nat then nth i wq 0 else 0)).
    + rewrite <- Hl. rewrite qsum_pick by lia. cbn [Nat.add].
      unfold qmul, vec_mul. symmetry. apply nth_map2; lia.
    + intros i Hi. cbn [Nat.add].
      rewrite (nth_indep _ 0 ((fun j0 => if (i =? j0)%nat then nth i wq 0 else 0) 0%nat))
        by (rewrite length_map, length_seq; lia).
      rewrite (map_nth (fun j0 => if (i =? j0)%nat then nth i wq 0 else 0)).
      now rewrite seq_nth by lia.
Qed.

Lemma qmatmul_qdiag A wq :
  rect (length wq) A ->
  qmatmul (length wq) A (qdiag wq) = scale_cols Qcmult A wq.
Proof.
  intros HR. unfold qmatmul, matmul, scale_cols. apply map_ext_in. intros r Hr.
  unfold rect in HR. rewrite Forall_forall in HR.
  apply qvecmat_qdiag. now apply HR.
Qed.

(** ** The coefficients are the closed-form solution *)

Lemma wls_closed_form_finite degree xs ys wq :
  length wq = length xs ->
  wls_closed_form degree xs ys (map Num wq)
  = match gauss_jordan (qnormal degree (map (powers degree) xs) wq) with
    | Some Bq =>
        Ok (map entry0
              (lift (qmatmul 1
                       (qmatmul (length wq) Bq
                          (scale_cols Qcmult
                             (transpose 0 (degree + 1) (map (powers degree) xs)) wq))
                       (as_col ys))))
    | None => Raise LinAlgError
    end.
Proof.
  intros Hw. unfold wls_closed_form. cbv zeta.
  rewrite length_map, diag_lift, vmatmul_lift, qmatmul_qdiag.
  2:{ rewrite Hw, <- (length_map (powers degree) xs). apply transpose_rect. }
  rewrite vmatmul_lift. fold (qnormal degree (map (powers degree) xs) wq).
  rewrite inv_lift. destruct (gauss_jordan _) as [Bq|]; [|reflexivity].
  cbn [bind]. rewrite vmatmul_lift.
  assert (Hy : map (fun v => [Num v]) ys = lift (as_col ys))
    by (unfold lift, as_col; rewrite map_map; reflexivity).
  now rewrite Hy, vmatmul_lift.
Qed.

Lemma col_of_entries (M : list (list Qc)) :
  rect 1 M -> map (fun v => [v]) (map entry0 (lift M)) = lift M.
Proof.
  intros H. unfold lift. rewrite !map_map. apply map_ext_in. intros r Hr.
  unfold rect in H. rewrite Forall_forall in H. specialize (H r Hr).
  destruct r as [|v [|v' r]]; try discriminate. reflexivity.
Qed.

Lemma row_betas_closed_form degree xs ys wq :
  length wq = length xs ->
  row_betas degree (length wq) (map (powers degree) xs) ys (map Num wq)
  = (betas <- wls_closed_form degree xs ys (map Num wq) ;;
     Ok (map (fun v => [v]) betas)).
Proof.
  intros Hw. rewrite row_betas_finite, wls_closed_form_finite by exact Hw.
  destruct (gauss_jordan _) as [Bq|]; [|reflexivity].
  cbn [bind]. rewrite scale_cols_qmatmul.
  now rewrite col_of_entries by (apply matmul_rect, rect_as_col).
Qed.

Lemma row_fit_closed_form degree k x y e :
  Qcmaxl (row_sel k x e) <> 0 ->
  row_fit degree k x y e
  = (betas <- wls_closed_form degree (gather x (row_inds k x e))
                              (gather y (row_inds k x e))
                              (row_weights (row_sel k x e)) ;;
     Ok (map (fun v => [v]) betas)).
Proof.
  intros Hz. unfold row_fit. rewrite row_weights_finite by exact Hz.
  set (wq := map (fun v => tricubeq (v / Qcmaxl (row_sel k x e))) (row_sel k x e)).
  assert (Hw : length wq = length (gather x (row_inds k x e))).
  { unfold wq. now rewrite length_map, row_sel_length, gather_length, row_inds_length. }
  replace (slice_stop k (length x)) with (length wq)
    by (unfold wq; now rewrite length_map, row_sel_length).
  now apply row_betas_closed_form.
Qed.

Lemma vmul_comm a b : vmul a b = vmul b a.
Proof. destruct a, b; simpl; auto. f_equal. ring. Qed.

Lemma row_dot_is_dot degree betas e :
  row_dot degree (map (fun v => [v]) betas) e = dot (map Num (powers degree e)) betas.
Proof.
  unfold row_dot, dot. f_equal. rewrite map_map. cbn [entry0 hd]. rewrite map_id.
  generalize (map Num (powers degree e)) as l. revert betas.
  induction betas as [|u betas IH]; intros [|c l]; simpl; auto.
  now rewrite IH, vmul_comm.
Qed.

(** For degree >= 1 the pipeline is the specification's local fit, row by
    row (on rows with a positive maximum distance). *)
Lemma loess_yhat_is_local_fit x y eval_x degree span E yhat j :
  (1 <= degree)%nat ->
  loess_yhat x y eval_x degree span = Ok (E, yhat) ->
  (j < length (eval_points x eval_x))%nat ->
  Qcmaxl (row_sel (ceil_span span (length x)) (sorted_x x)
                  (nth j (eval_points x eval_x) 0)) <> 0 ->
  exists ys,
    sort_by_x x y = Ok (sorted_x x, ys)
    /\ local_fit degree (ceil_span span (length x)) (sorted_x x) ys
                 (nth j (eval_points x eval_x) 0)
       = Ok (nth j yhat NaN).
Proof.
  intros Hd H Hj Hz.
  destruct (loess_yhat_Ok_inv _ _ _ _ _ _ H) as [xs [ys [B [Hs [Hxs [Hn [HB Hp]]]]]]].
  subst xs. unfold sorted_x in HB, Hp, Hn. rewrite sorted_x_length in HB, Hn.
  fold (sorted_x x) in HB, Hp. fold (eval_points x eval_x) in HB, Hp.
  exists ys. split; [exact Hs|].
  assert (HlenB := mapM_length _ _ _ HB).
  rewrite predict_rows_degree_pos in Hp; auto.
  2:{ intros r Hr. destruct (In_nth B r [] Hr) as [i [Hi Hnth]].
      pose proof (mapM_nth _ _ _ i 0 [] HB ltac:(lia)) as Hrow.
      rewrite Hnth in Hrow. now apply row_fit_length in Hrow. }
  inversion Hp; subst E yhat.
  pose proof (mapM_nth _ _ _ j 0 [] HB Hj) as Hrow.
  rewrite row_fit_closed_form in Hrow by exact Hz.
  unfold local_fit.
  destruct (wls_closed_form _ _ _ _) as [betas|]; [|discriminate].
  cbn [bind] in *. inversion Hrow as [Hb]. f_equal.
  rewrite (nth_map2 _ _ _ _ [] 0) by lia.
  rewrite <- Hb. symmetry. apply row_dot_is_dot.
Qed.

(** ** Degree 0 with several evaluation points

    [squeeze] leaves one axis of length m; the product with the (m, 1)
    evaluation matrix has shape (m, m) and every row sums all m
    coefficients. *)

Lemma predict_rows_degree0_sum ev B :
  length ev <> 1%nat -> length B = length ev ->
  predict_rows 0 ev B
  = Ok (map (powers 0) ev, map (fun _ => coefficient_sum B) ev).
Proof.
  intros Hm HB. unfold predict_rows, squeeze. cbn [Nat.add Nat.eqb].
  apply Nat.eqb_neq in Hm. rewrite Hm. cbn [broadcast_mul].
  rewrite length_map, HB, Hm. cbn [Nat.eqb bind]. f_equal. f_equal.
  unfold lift. rewrite !map_map. apply map_ext. intros e.
  unfold coefficient_sum. now rewrite map_map.
Qed.

Lemma loess_degree0_all_equal x y ev span yhat :
  length ev <> 1%nat ->
  loess x y (Some ev) 0 span = Ok (Values yhat) ->
  exists s, yhat = map (fun _ => s) ev.
Proof.
  intros Hm H. unfold loess in H.
  destruct (loess_yhat x y (Some ev) 0 span) as [[E l]|] eqn:Ey; [|discriminate].
  cbn [bind] in H. inversion H; subst l.
  destruct (loess_yhat_Ok_inv _ _ _ _ _ _ Ey) as [xs [ys [B [_ [_ [_ [HB Hp]]]]]]].
  rewrite predict_rows_degree0_sum in Hp; auto.
  - inversion Hp. eauto.
  - now apply mapM_length in HB.
Qed.

(** For degree 0 the single coefficient of a row is the tricubic-weighted
    average of its neighbourhood. *)

Lemma qvecmat_col r c : qvecmat 1 r (as_col c) = [qsum (map2 Qcmult r c)].
Proof.
  revert c. induction r as [|x r IH]; intros [|y c]; try reflexivity.
  unfold as_col. cbn [map]. fold (as_col c). rewrite qvecmat_cons, IH.
  reflexivity.
Qed.

Lemma qnormal_degree0 xs wq :
  length xs = length wq ->
  qnormal 0 (map (powers 0) xs) wq = [[qsum wq]].
Proof.
  intros H. unfold qnormal.
  rewrite (map_ext (powers 0) (fun _ => [1])) by reflexivity.
  unfold transpose, scale_cols, qmatmul, matmul. cbn [Nat.add seq map].
  rewrite map_map. cbn [nth]. unfold vec_mul.
  rewrite map2_ones_l by exact H.
  f_equal. now apply qvecmat_ones.
Qed.

Lemma row_betas_degree0 xs ys wq :
  length xs = length wq -> qsum wq <> 0 ->
  row_betas 0 (length wq) (map (powers 0) xs) ys (map Num wq)
  = Ok [[weighted_average (map Num wq) ys]].
Proof.
  intros Hx Hs. rewrite row_betas_finite, qnormal_degree0 by exact Hx.
  rewrite gauss_jordan_1x1 by exact Hs. f_equal.
  unfold weighted_average.
  rewrite (map2_Num Qcmult vmul) by reflexivity. rewrite !vsum_Num.
  cbn [vquot]. rewrite vdiv_nonzero by exact Hs.
  rewrite (map_ext (powers 0) (fun _ => [1])) by reflexivity.
  unfold transpose. cbn [Nat.add seq map]. rewrite map_map. cbn [nth].
  unfold qmatmul, matmul. cbn [map scale_cols lift]. do 2 f_equal.
  rewrite qvecmat_cons, qvecmat_nil_l. fold (qmul (qadd (qscale (/ qsum wq * 1)
    (map (fun _ => 1) xs)) (repeat 0 (length wq))) wq).
  replace (length wq) with (length (qscale (/ qsum wq * 1) (map (fun _ : Qc => 1) xs)))
    at 1 by now rewrite qscale_length, length_map.
  rewrite qadd_zeros_r, qmul_qscale.
  unfold qmul at 1. unfold vec_mul. rewrite map2_ones_l by exact Hx.
  rewrite qvecmat_qscale, qvecmat_col.
  unfold qscale, vec_scale. cbn [map]. do 2 f_equal.
  unfold Qcdiv. ring.
Qed.

Lemma row_fit_degree0_average k x y e :
  Qcmaxl (row_sel k x e) <> 0 ->
  qsum (map (fun v => tricubeq (v / Qcmaxl (row_sel k x e))) (row_sel k x e)) <> 0 ->
  row_fit 0 k x y e
  = Ok [[weighted_average (row_weights (row_sel k x e)) (gather y (row_inds k x e))]].
Proof.
  intros Hz Hs. unfold row_fit. rewrite row_weights_finite by exact Hz.
  set (wq := map (fun v => tricubeq (v / Qcmaxl (row_sel k x e))) (row_sel k x e)) in *.
  replace (slice_stop k (length x)) with (length wq)
    by (unfold wq; now rewrite length_map, row_sel_length).
  apply row_betas_degree0; [|exact Hs].
  unfold wq. now rewrite length_map, row_sel_length, gather_length, row_inds_length.
Qed.

(** * Further properties of [loess] *)

(** ** Arrays of different lengths (lines 36-38) *)

Lemma take_short (a : list Qc) idx i :
  In i idx -> (length a <= i)%nat -> take a idx = Raise IndexError.
Proof.
  intros Hi Hlen. unfold take. apply mapM_Raise.
  - intros j _. destruct (nth_error a j); [right; eauto | left; reflexivity].
  - exists i. split; auto. apply nth_error_None in Hlen. now rewrite Hlen.
Qed.

Lemma sort_by_x_short x y :
  (length y < length x)%nat -> sort_by_x x y = Raise IndexError.
Proof.
  intros H. unfold sort_by_x. rewrite (take_short y _ (length y)); auto.
  apply (Permutation_in _ (Permutation_sym (argsort_perm x))). apply in_seq. lia.
Qed.

Lemma sort_by_x_raises x y e : sort_by_x x y = Raise e -> (length y < length x)%nat.
Proof.
  intros H. destruct (Nat.le_gt_cases (length x) (length y)) as [Hle|Hlt]; auto.
  rewrite sort_by_x_ok in H by exact Hle. discriminate.
Qed.

(** X1. A [y] shorter than [x] is rejected: [y[order]] of line 38 indexes
    [y] with a permutation of [0 .. len(x)-1], so the call raises
    IndexError whatever the other arguments are. *)
Theorem short_y_index_error (x y : list Qc) (eval_x : option (list Qc))
        (degree : nat) (span : Qc) :
  (length y < length x)%nat -> loess x y eval_x degree span = Raise IndexError.
Proof.
  intros H. unfold loess, loess_yhat. rewrite sort_by_x_short by exact H. reflexivity.
Qed.

Lemma short_y_index_error_witness :
  loess (map qz [0;1;2]%Z) (map qz [5;7]%Z) None 1 1 = Raise IndexError.
Proof. apply short_y_index_error. simpl. lia. Defined.

Lemma gather_firstn (y : list Qc) n idx :
  (forall i, In i idx -> (i < n)%nat) -> gather (firstn n y) idx = gather y idx.
Proof.
  intros H. unfold gather. apply map_ext_in. intros i Hi.
  rewrite nth_firstn. apply H in Hi. apply Nat.ltb_lt in Hi. now rewrite Hi.
Qed.

(** X2. A [y] longer than [x] is not rejected: only its first [len(x)]
    entries are read (line 38), the others are silently ignored. *)
Theorem long_y_truncated (x y : list Qc) (eval_x : option (list Qc))
        (degree : nat) (span : Qc) :
  (length x <= length y)%nat ->
  loess x y eval_x degree span = loess x (firstn (length x) y) eval_x degree span.
Proof.
  intros H. unfold loess.
  rewrite (loess_yhat_sorted x y) by exact H.
  rewrite (loess_yhat_sorted x (firstn (length x) y)) by (rewrite length_firstn; lia).
  unfold sorted_y. rewrite gather_firstn by apply argsort_lt. reflexivity.
Qed.

Lemma long_y_truncated_witness :
  loess (map qz [0;1;2]%Z) (map qz [5;7;9;100;200]%Z) None 1 1
  = loess (map qz [0;1;2]%Z) (firstn (length (map qz [0;1;2]%Z)) (map qz [5;7;9;100;200]%Z))
          None 1 1.
Proof. apply long_y_truncated. simpl. lia. Defined.

(** ** The span enters through the number of kept columns (line 45) *)

Lemma row_inds_span k k' x e :
  slice_stop k (length x) = slice_stop k' (length x) -> row_inds k x e = row_inds k' x e.
Proof.
  intros H. unfold row_inds, slice_to. now rewrite argsort_length, row_dists_length, H.
Qed.

Lemma row_fit_span degree k k' x y e :
  slice_stop k (length x) = slice_stop k' (length x) ->
  row_fit degree k x y e = row_fit degree k' x y e.
Proof.
  intros H. unfold row_fit, row_sel. now rewrite (row_inds_span k k' x e H), H.
Qed.

Lemma sort_by_x_length x y xs ys :
  sort_by_x x y = Ok (xs, ys) -> length xs = length x.
Proof.
  unfold sort_by_x. destruct (take y (argsort x)); [|discriminate].
  cbn [bind]. intros H. inversion H. apply sorted_x_length.
Qed.

Lemma loess_yhat_span x y eval_x degree span span' :
  slice_stop (ceil_span span (length x)) (length x)
  = slice_stop (ceil_span span' (length x)) (length x) ->
  loess_yhat x y eval_x degree span = loess_yhat x y eval_x degree span'.
Proof.
  intros H. rewrite !loess_yhat_rows.
  destruct (sort_by_x x y) as [[xs ys]|] eqn:Es; [|reflexivity].
  apply sort_by_x_length in Es. cbn [bind fst snd]. cbv zeta. rewrite Es, H.
  destruct (_ =? 0)%nat; [reflexivity|].
  rewrite (mapM_ext _ (row_fit degree (ceil_span span' (length x)) xs ys)); [reflexivity|].
  intros e _. apply row_fit_span. now rewrite Es.
Qed.

(** X3. The span influences the result only through the number of columns
    that the slice [[:, :k]] of line 45 keeps, k = ceil(span * n): two spans
    keeping the same number of neighbours give the same result, errors
    included. *)
Theorem span_through_neighbour_count (x y : list Qc) (eval_x : option (list Qc))
        (degree : nat) (span span' : Qc) :
  slice_stop (ceil_span span (length x)) (length x)
  = slice_stop (ceil_span span' (length x)) (length x) ->
  loess x y eval_x degree span = loess x y eval_x degree span'.
Proof. intros H. unfold loess. now rewrite (loess_yhat_span _ _ _ _ span span'). Qed.

Lemma span_through_neighbour_count_witness :
  loess digits digits None 1 (qfrac 3 4) = loess digits digits None 1 (qfrac (-1) 5).
Proof. apply span_through_neighbour_count. vm_compute. reflexivity. Defined.

Lemma inject_nat_nonneg n : (0 <= inject_Z (Z.of_nat n))%Q.
Proof. change 0%Q with (inject_Z 0). rewrite <- Zle_Qle. lia. Qed.

Lemma ceil_span_mono s s' n : s <= s' -> (ceil_span s n <= ceil_span s' n)%Z.
Proof.
  intros H. unfold ceil_span. apply Qceiling_resp_le.
  apply Qmult_le_compat_r; [exact H | apply inject_nat_nonneg].
Qed.

Lemma ceil_span_1 n : ceil_span 1 n = Z.of_nat n.
Proof.
  unfold ceil_span. change (this 1) with 1%Q.
  rewrite (Qceiling_comp _ (inject_Z (Z.of_nat n))) by apply Qmult_1_l.
  apply Qceiling_Z.
Qed.

Lemma ceil_span_0 n : ceil_span 0 n = 0%Z.
Proof.
  unfold ceil_span. change (this 0) with 0%Q.
  rewrite (Qceiling_comp _ (inject_Z 0)) by apply Qmult_0_l.
  apply Qceiling_Z.
Qed.

Lemma slice_stop_all k n : (Z.of_nat n <= k)%Z -> slice_stop k n = n.
Proof. intros H. unfold slice_stop. destruct (Z.ltb_spec k 0); lia. Qed.

(** X4. A span of 1 or more keeps every observation in every neighbourhood:
    the slice stop is clamped to the row length, so any span >= 1 gives
    exactly the result of span = 1. *)
Theorem span_above_one (x y : list Qc) (eval_x : option (list Qc))
        (degree : nat) (span : Qc) :
  1 <= span ->
  slice_stop (ceil_span span (length x)) (length x) = length x
  /\ loess x y eval_x degree span = loess x y eval_x degree 1.
Proof.
  intros H.
  assert (Hk : slice_stop (ceil_span span (length x)) (length x) = length x).
  { apply slice_stop_all. rewrite <- (ceil_span_1 (length x)). now apply ceil_span_mono. }
  split; [exact Hk|].
  unfold loess. rewrite (loess_yhat_span _ _ _ _ span 1); [reflexivity|].
  rewrite Hk. symmetry. apply slice_stop_all. rewrite ceil_span_1. lia.
Qed.

Lemma span_above_one_witness :
  slice_stop (ceil_span (qz 3) (length digits)) (length digits) = length digits
  /\ loess digits digits None 1 (qz 3) = loess digits digits None 1 1.
Proof. apply span_above_one. discriminate. Defined.

(** X5. For a non-negative span the number of neighbours used,
    min(ceil(span * n), n), never decreases when the span grows.  (For a
    negative span the slice stop counts from the end and this fails.) *)
Theorem neighbour_count_monotone (span span' : Qc) (n : nat) :
  0 <= span -> span <= span' ->
  (ceil_span span n <= ceil_span span' n)%Z
  /\ (slice_stop (ceil_span span n) n <= slice_stop (ceil_span span' n) n)%nat.
Proof.
  intros H0 H.
  assert (Hm := ceil_span_mono span span' n H).
  assert (Hz := ceil_span_mono 0 span n H0). rewrite ceil_span_0 in Hz.
  split; [exact Hm|]. unfold slice_stop.
  destruct (Z.ltb_spec (ceil_span span n) 0), (Z.ltb_spec (ceil_span span' n) 0); lia.
Qed.

Lemma neighbour_count_monotone_witness :
  (ceil_span (qfrac 1 4) 10 <= ceil_span (qfrac 3 4) 10)%Z
  /\ (slice_stop (ceil_span (qfrac 1 4) 10) 10 <= slice_stop (ceil_span (qfrac 3 4) 10) 10)%nat.
Proof. apply neighbour_count_monotone; discriminate. Defined.

(** ** The selected neighbours are the nearest ones (lines 45-46) *)

Lemma StronglySorted_app_inv {A : Type} (R : A -> A -> Prop) l1 l2 :
  StronglySorted R (l1 ++ l2) ->
  StronglySorted R l1 /\ forall a b, In a l1 -> In b l2 -> R a b.
Proof.
  induction l1 as [|c t IH]; simpl; intros H.
  - split; [constructor | intros a b []].
  - apply StronglySorted_inv in H as [Ht Hc]. destruct (IH Ht) as [IH1 IH2].
    rewrite Forall_forall in Hc. split.
    + constructor; auto. apply Forall_forall. intros a Ha. apply Hc, in_or_app. now left.
    + intros a b [<-|Ha] Hb; auto. apply Hc, in_or_app. now right.
Qed.

Lemma StronglySorted_map {A B : Type} (R : B -> B -> Prop) (f : A -> B) l :
  StronglySorted (fun a b => R (f a) (f b)) l -> StronglySorted R (map f l).
Proof.
  induction 1 as [|a t Ht IH Ha]; simpl; constructor; auto.
  rewrite Forall_map. exact Ha.
Qed.

Lemma slice_to_nearest k (row : list Qc) :
  let inds := slice_to k (argsort row) in
  length inds = slice_stop k (length row)
  /\ NoDup inds
  /\ (forall i, In i inds -> (i < length row)%nat)
  /\ StronglySorted Qcle (gather row inds)
  /\ (forall i i', In i inds -> (i' < length row)%nat -> ~ In i' inds ->
                   nth i row 0 <= nth i' row 0).
Proof.
  intros inds. unfold inds, slice_to. rewrite argsort_length.
  set (m := slice_stop k (length row)).
  assert (Hsplit := firstn_skipn m (argsort row)).
  assert (Hs := argsort_sorted row). rewrite <- Hsplit in Hs.
  apply StronglySorted_app_inv in Hs as [Hs1 Hs2].
  assert (Hnd : NoDup (argsort row)).
  { apply (Permutation_NoDup (Permutation_sym (argsort_perm row))). apply seq_NoDup. }
  split; [|split; [|split; [|split]]].
  - rewrite length_firstn, argsort_length. subst m. pose proof (slice_stop_le k (length row)). lia.
  - rewrite <- Hsplit in Hnd. now apply NoDup_app_remove_r in Hnd.
  - intros i Hi. apply argsort_lt. now apply In_firstn in Hi.
  - unfold gather. apply StronglySorted_map. exact Hs1.
  - intros i i' Hi Hi' Hn. apply (Hs2 i i' Hi).
    assert (Hin : In i' (argsort row)).
    { apply (Permutation_in _ (Permutation_sym (argsort_perm row))). apply in_seq. lia. }
    rewrite <- Hsplit in Hin. apply in_app_or in Hin as [Hin|Hin]; [contradiction|exact Hin].
Qed.

(** X6. Line 45 selects, for every evaluation point, the nearest
    observations: the kept indices are distinct positions of the row, as
    many as the slice keeps, listed by ascending distance, and no
    observation left out is nearer than one that is kept. *)
Theorem neighbors_nearest (k : Z) (dists : list (list Qc)) (j : nat) (row : list Qc) :
  nth_error dists j = Some row ->
  exists inds,
    nth_error (neighbors k dists) j = Some inds
    /\ length inds = slice_stop k (length row)
    /\ NoDup inds
    /\ (forall i, In i inds -> (i < length row)%nat)
    /\ StronglySorted Qcle (gather row inds)
    /\ (forall i i', In i inds -> (i' < length row)%nat -> ~ In i' inds ->
                     nth i row 0 <= nth i' row 0).
Proof.
  intros H. exists (slice_to k (argsort row)). split.
  - unfold neighbors. now rewrite nth_error_map, H.
  - apply slice_to_nearest.
Qed.

Lemma neighbors_nearest_witness :
  exists inds,
    nth_error (neighbors 3 (distances digits [qz 4; qz 7])) 1 = Some inds
    /\ length inds = slice_stop 3 (length (map (fun xi => Qcabs (qz 7 - xi)) digits))
    /\ NoDup inds
    /\ (forall i, In i inds -> (i < length (map (fun xi => Qcabs (qz 7 - xi)) digits))%nat)
    /\ StronglySorted Qcle (gather (map (fun xi => Qcabs (qz 7 - xi)) digits) inds)
    /\ (forall i i', In i inds ->
                     (i' < length (map (fun xi => Qcabs (qz 7 - xi)) digits))%nat ->
                     ~ In i' inds ->
                     nth i (map (fun xi => Qcabs (qz 7 - xi)) digits) 0
                     <= nth i' (map (fun xi => Qcabs (qz 7 - xi)) digits) 0).
Proof. apply neighbors_nearest. reflexivity. Defined.

(** X7. When the slice stop reaches the row length (span >= 1), each
    neighbourhood is the whole sample: the kept indices are a permutation
    of all positions. *)
Theorem neighbors_full_span (k : Z) (dists : list (list Qc)) (j : nat) (row : list Qc) :
  (Z.of_nat (length row) <= k)%Z ->
  nth_error dists j = Some row ->
  exists inds,
    nth_error (neighbors k dists) j = Some inds
    /\ Permutation inds (seq 0 (length row)).
Proof.
  intros Hk H. exists (slice_to k (argsort row)). split.
  - unfold neighbors. now rewrite nth_error_map, H.
  - unfold slice_to. rewrite slice_stop_all by now rewrite argsort_length.
    rewrite firstn_all. apply argsort_perm.
Qed.

Lemma neighbors_full_span_witness :
  exists inds,
    nth_error (neighbors 12 (distances digits [qz 4; qz 7])) 0 = Some inds
    /\ Permutation inds (seq 0 (length (map (fun xi => Qcabs (qz 4 - xi)) digits))).
Proof. apply neighbors_full_span; [simpl; lia | reflexivity]. Defined.

(** ** Which errors a call can raise, and where *)

Lemma mapM_raises {A B : Type} (f : A -> result B) l e :
  mapM f l = Raise e -> exists a, In a l /\ f a = Raise e.
Proof.
  induction l as [|a t IH]; simpl; intros H; [discriminate|].
  destruct (f a) eqn:Ea; simpl in H.
  - destruct (mapM f t); simpl in H; [discriminate|].
    inversion H; subst. destruct IH as [a' [Hin Ha']]; eauto.
  - inversion H; subst. eauto.
Qed.

Lemma inv_raises A e : inv A = Raise e -> e = LinAlgError.
Proof.
  unfold inv. destruct (finite_matrix A); [|discriminate].
  destruct (gauss_jordan _); [discriminate|]. now inversion 1.
Qed.

Lemma row_fit_raises degree k x y e err :
  row_fit degree k x y e = Raise err -> err = LinAlgError.
Proof.
  unfold row_fit, row_betas. destruct (inv _) eqn:Ei; [discriminate|].
  cbn [bind]. intros H. inversion H; subst. now apply inv_raises in Ei.
Qed.

Lemma row_fit_rows degree k x y ev B b :
  mapM (row_fit degree k x y) ev = Ok B -> In b B -> length b = (degree + 1)%nat.
Proof.
  intros HB Hb. destruct (In_nth B b [] Hb) as [j [Hj Hnth]].
  assert (Hlen := mapM_length _ _ _ HB).
  pose proof (mapM_nth _ _ _ j 0 [] HB ltac:(lia)) as Hrow.
  rewrite Hnth in Hrow. now apply row_fit_length in Hrow.
Qed.

(** Line 67 never fails on coefficients of the right shape. *)
Lemma predict_rows_total degree ev B :
  length B = length ev ->
  (forall b, In b B -> length b = (degree + 1)%nat) ->
  exists yhat, predict_rows degree ev B = Ok (map (powers degree) ev, yhat).
Proof.
  intros HB Hb. unfold predict_rows, squeeze.
  destruct (length ev =? 1)%nat eqn:Em, (degree + 1 =? 1)%nat eqn:Ep;
    cbn [broadcast_mul]; try (eexists; reflexivity).
  - destruct ev as [|e [|e' ev]]; try discriminate.
    destruct B as [|b [|b' B]]; try discriminate.
    cbn [hd]. rewrite length_map, (Hb b) by now left.
    rewrite Nat.eqb_refl. eexists; reflexivity.
  - rewrite Ep. destruct (_ =? degree + 1)%nat; eexists; reflexivity.
Qed.

Lemma loess_yhat_raises x y eval_x degree span e :
  (length x <= length y)%nat ->
  (0 < slice_stop (ceil_span span (length x)) (length x))%nat ->
  loess_yhat x y eval_x degree span = Raise e ->
  e = LinAlgError
  /\ exists e0, In e0 (eval_points x eval_x)
       /\ row_fit degree (ceil_span span (length x)) (sorted_x x) (sorted_y x y) e0
          = Raise LinAlgError.
Proof.
  intros Hlen Hn H. rewrite loess_yhat_sorted in H by exact Hlen. cbv zeta in H.
  destruct (_ =? 0)%nat eqn:E; [apply Nat.eqb_eq in E; lia|].
  destruct (mapM _ _) as [B|e'] eqn:EB; cbn [bind] in H.
  - destruct (predict_rows_total degree (eval_points x eval_x) B) as [yhat Hy].
    + now apply mapM_length in EB.
    + intros b. now apply (row_fit_rows _ _ _ _ _ _ _ EB).
    + rewrite Hy in H. discriminate.
  - inversion H; subst e'. apply mapM_raises in EB as [e0 [Hin He0]].
    assert (e = LinAlgError) by now apply row_fit_raises in He0.
    subst e. eauto.
Qed.

(** X8. On arrays of matching length and with at least one neighbour kept,
    a call can fail in two ways only: with LinAlgError, exactly because the
    normal matrix of some evaluation point is singular (lines 60-65), or
    with the IndexError of [eval_x[:, 1]] (line 70) for degree 0 without
    [eval_x]. *)
Theorem valid_call_errors (x y : list Qc) (eval_x : option (list Qc))
        (degree : nat) (span : Qc) (e : exn) :
  (length x <= length y)%nat ->
  (0 < slice_stop (ceil_span span (length x)) (length x))%nat ->
  loess x y eval_x degree span = Raise e ->
  (e = LinAlgError
   /\ exists e0, In e0 (eval_points x eval_x)
        /\ row_fit degree (ceil_span span (length x)) (sorted_x x) (sorted_y x y) e0
           = Raise LinAlgError)
  \/ (e = IndexError /\ degree = 0%nat /\ eval_x = None).
Proof.
  intros Hlen Hn H. unfold loess in H.
  destruct (loess_yhat x y eval_x degree span) as [[E yhat]|e'] eqn:Ey; cbn [bind] in H.
  - right. destruct eval_x as [ev|]; [discriminate|].
    unfold column1 in H. destruct (1 <? degree + 1)%nat eqn:Ed; [discriminate|].
    apply Nat.ltb_ge in Ed. inversion H. repeat split; auto. lia.
  - left. inversion H; subst e'. now apply loess_yhat_raises.
Qed.

Lemma valid_call_errors_witness :
  (LinAlgError = LinAlgError
   /\ exists e0, In e0 (eval_points digits None)
        /\ row_fit 2 (ceil_span (qfrac 1 5) (length digits)) (sorted_x digits)
                   (sorted_y digits digits) e0 = Raise LinAlgError)
  \/ (LinAlgError = IndexError /\ 2%nat = 0%nat /\ @None (list Qc) = None).
Proof.
  apply (valid_call_errors digits digits None 2 (qfrac 1 5) LinAlgError).
  - simpl. lia.
  - vm_compute. lia.
  - apply loess_by_eval. vm_compute. reflexivity.
Defined.

Lemma take_raises (a : list Qc) idx e : take a idx = Raise e -> e = IndexError.
Proof.
  unfold take. intros H. apply mapM_raises in H as [i [_ Hi]].
  destruct (nth_error a i); [discriminate|]. now inversion Hi.
Qed.

(** X9. The batched inversion is all or nothing: if the call at a single
    evaluation point fails with LinAlgError, so does every call whose
    [eval_x] contains that point, whatever the other points are. *)
Theorem batch_fails_with_one_point (x y : list Qc) (ev : list Qc) (e : Qc)
        (degree : nat) (span : Qc) :
  In e ev ->
  loess x y (Some [e]) degree span = Raise LinAlgError ->
  loess x y (Some ev) degree span = Raise LinAlgError.
Proof.
  intros Hin H. unfold loess in *.
  destruct (loess_yhat x y (Some [e]) degree span) as [[E yhat]|e'] eqn:Ey;
    cbn [bind] in H; [discriminate|].
  inversion H; subst e'. clear H.
  rewrite loess_yhat_rows in Ey. rewrite loess_yhat_rows.
  destruct (sort_by_x x y) as [[xs ys]|e'] eqn:Es; cbn [bind fst snd] in *.
  2:{ unfold sort_by_x in Es. destruct (take y (argsort x)) eqn:Et; [discriminate|].
      apply take_raises in Et. cbn [bind] in Es. congruence. }
  cbv zeta in *. destruct (_ =? 0)%nat; [discriminate|].
  cbn [mapM] in Ey.
  destruct (row_fit degree _ xs ys e) as [b|e'] eqn:Er; cbn [bind] in Ey.
  - destruct (predict_rows_total degree [e] [b]) as [yhat Hy]; auto.
    + intros b' [<-|[]]. now apply row_fit_length in Er.
    + rewrite Hy in Ey. discriminate.
  - inversion Ey; subst e'.
    rewrite (mapM_Raise _ _ LinAlgError); [reflexivity| |eauto].
    intros a _. destruct (row_fit degree _ xs ys a) eqn:Ea; [right; eauto|left].
    apply row_fit_raises in Ea. now subst.
Qed.

Lemma batch_fails_with_one_point_witness :
  loess (map qz [0;0;0;1;2;3]%Z) (map qz [1;2;3;4;5;6]%Z)
        (Some [qz 0; qz 2]) 1 (qfrac 1 3) = Raise LinAlgError.
Proof.
  apply (batch_fails_with_one_point _ _ _ (qz 2)).
  - simpl. auto.
  - apply loess_by_eval. vm_compute. reflexivity.
Defined.

(** ** The role of [y] *)

Lemma row_fit_other_y degree k x y y' e :
  match row_fit degree k x y e with
  | Raise err => row_fit degree k x y' e = Raise err
  | Ok _ => exists b', row_fit degree k x y' e = Ok b'
  end.
Proof. unfold row_fit, row_betas. destruct (inv _); cbn [bind]; eauto. Qed.

Lemma mapM_same_outcome {A B C : Type} (f : A -> result B) (g : A -> result C) l :
  (forall a, match f a with
             | Raise e => g a = Raise e
             | Ok _ => exists c, g a = Ok c
             end) ->
  match mapM f l with
  | Raise e => mapM g l = Raise e
  | Ok _ => exists r, mapM g l = Ok r
  end.
Proof.
  intros H. induction l as [|a t IH]; simpl; [eauto|].
  specialize (H a). destruct (f a); simpl.
  - destruct H as [c ->]. simpl. destruct (mapM f t); simpl.
    + destruct IH as [r ->]. simpl. eauto.
    + now rewrite IH.
  - now rewrite H.
Qed.

Lemma loess_raise_other_y x y y' eval_x degree span e :
  length y = length y' ->
  loess x y eval_x degree span = Raise e -> loess x y' eval_x degree span = Raise e.
Proof.
  intros Hyy H. destruct (Nat.le_gt_cases (length x) (length y)) as [Hle|Hgt].
  - unfold loess in *. rewrite loess_yhat_sorted in * by lia. cbv zeta in *.
    destruct (_ =? 0)%nat; [exact H|].
    pose proof (mapM_same_outcome
                  (row_fit degree (ceil_span span (length x)) (sorted_x x) (sorted_y x y))
                  (row_fit degree (ceil_span span (length x)) (sorted_x x) (sorted_y x y'))
                  (eval_points x eval_x)
                  (fun e0 => row_fit_other_y degree _ _ _ _ e0)) as Hm.
    destruct (mapM _ _) as [B|err] eqn:EB.
    + destruct Hm as [B' EB']. rewrite EB'. cbn [bind] in *.
      destruct (predict_rows_total degree (eval_points x eval_x) B) as [yhat Hy];
        [now apply mapM_length in EB | intros b; now apply (row_fit_rows _ _ _ _ _ _ _ EB)|].
      destruct (predict_rows_total degree (eval_points x eval_x) B') as [yhat' Hy'];
        [now apply mapM_length in EB' | intros b; now apply (row_fit_rows _ _ _ _ _ _ _ EB')|].
      rewrite Hy in H. rewrite Hy'. cbn [bind] in *.
      destruct eval_x; [discriminate|].
      destruct (column1 _ _); [discriminate|exact H].
    + rewrite Hm. exact H.
  - unfold loess, loess_yhat in *.
    rewrite sort_by_x_short in * by lia. exact H.
Qed.

(** X10. Whether a call fails, and with which error, does not depend on the
    values in [y], only on its length: the singular matrices of lines 60-65
    are built from x, eval_x, degree and span alone. *)
Theorem errors_independent_of_y (x y y' : list Qc) (eval_x : option (list Qc))
        (degree : nat) (span : Qc) (e : exn) :
  length y = length y' ->
  (loess x y eval_x degree span = Raise e <-> loess x y' eval_x degree span = Raise e).
Proof. intros H. split; apply loess_raise_other_y; auto. Qed.

Lemma errors_independent_of_y_witness :
  loess digits digits None 2 (qfrac 1 5) = Raise LinAlgError
  <-> loess digits (map qz [3;1;4;1;5;9;2;6;5;3]%Z) None 2 (qfrac 1 5) = Raise LinAlgError.
Proof. apply errors_independent_of_y. reflexivity. Defined.

Lemma vmul_assoc_Num a u v : vmul (vmul (Num a) u) v = vmul (Num a) (vmul u v).
Proof. destruct u, v; simpl; auto. f_equal. ring. Qed.

Lemma vmul_swap_Num a u v : vmul u (vmul (Num a) v) = vmul (Num a) (vmul u v).
Proof. destruct u, v; simpl; auto. f_equal. ring. Qed.

Lemma vsum_scale a l :
  vsum (Num 0) vadd (map (vmul (Num a)) l) = vmul (Num a) (vsum (Num 0) vadd l).
Proof.
  unfold vsum. induction l as [|u t IH]; cbn [map fold_right].
  - cbn [vmul]. f_equal. ring.
  - rewrite IH.
    destruct u, (fold_right vadd (Num 0) t); cbn [vmul vadd]; auto. f_equal. ring.
Qed.

Lemma entry0_scale a col : entry0 (map (vmul (Num a)) col) = vmul (Num a) (entry0 col).
Proof. destruct col; reflexivity. Qed.

Lemma hd_map_nil {A B : Type} (g : A -> B) (l : list (list A)) :
  hd [] (map (map g) l) = map g (hd [] l).
Proof. destruct l; reflexivity. Qed.

Lemma vecmat_scale_col a r l :
  vecmat (Num 0) vadd vmul 1 r (map (fun v => [Num (a * v)]) l)
  = map (vmul (Num a)) (vecmat (Num 0) vadd vmul 1 r (map (fun v => [Num v]) l)).
Proof.
  assert (H0 : repeat (Num 0) 1 = map (vmul (Num a)) (repeat (Num 0) 1)).
  { simpl. do 2 f_equal. ring. }
  revert r. induction l as [|v t IH]; intros r.
  - cbn [map]. rewrite !vecmat_nil_r. exact H0.
  - destruct r as [|c r]; [rewrite !vecmat_nil_l; exact H0|].
    cbn [map]. rewrite !vecmat_cons, IH.
    destruct (vecmat (Num 0) vadd vmul 1 r (map (fun v0 => [Num v0]) t)) as [|u rest];
      [reflexivity|].
    cbn. f_equal. destruct c, u; simpl; auto. f_equal. ring.
Qed.

Lemma row_betas_scale a degree ncols X ys w :
  row_betas degree ncols X (map (Qcmult a) ys) w
  = (b <- row_betas degree ncols X ys w ;; Ok (map (map (vmul (Num a))) b)).
Proof.
  unfold row_betas. destruct (inv _) as [iA|]; cbn [bind]; [|reflexivity].
  f_equal. unfold vmatmul, matmul. rewrite !map_map.
  apply map_ext. intros r. apply vecmat_scale_col.
Qed.

Lemma gather_scale a y idx :
  gather (map (Qcmult a) y) idx = map (Qcmult a) (gather y idx).
Proof.
  unfold gather. rewrite map_map. apply map_ext. intros i.
  rewrite <- (map_nth (Qcmult a)). f_equal. ring.
Qed.

Lemma row_fit_scale a degree k x y e :
  row_fit degree k x (map (Qcmult a) y) e
  = (b <- row_fit degree k x y e ;; Ok (map (map (vmul (Num a))) b)).
Proof. unfold row_fit. rewrite gather_scale. apply row_betas_scale. Qed.

Lemma mapM_post {A B C : Type} (f : A -> result B) (g : B -> C) l :
  mapM (fun a => b <- f a ;; Ok (g b)) l = (r <- mapM f l ;; Ok (map g r)).
Proof.
  induction l as [|a t IH]; simpl; auto.
  destruct (f a); simpl; auto. rewrite IH. destruct (mapM f t); reflexivity.
Qed.

Lemma squeeze_scale a m p B :
  squeeze m p (map (map (map (vmul (Num a)))) B) = scale_ndarray a (squeeze m p B).
Proof.
  unfold squeeze. destruct (m =? 1)%nat, (p =? 1)%nat; cbn [scale_ndarray]; f_equal.
  - now rewrite !hd_map_nil, entry0_scale.
  - rewrite hd_map_nil, !map_map. apply map_ext. intros c. apply entry0_scale.
  - rewrite !map_map. apply map_ext. intros mat. now rewrite hd_map_nil, entry0_scale.
  - rewrite !map_map. apply map_ext. intros mat. rewrite !map_map.
    apply map_ext. intros c. apply entry0_scale.
Qed.

Lemma map2_vmul_scale a l r :
  map2 vmul (map (vmul (Num a)) l) r = map (vmul (Num a)) (map2 vmul l r).
Proof.
  rewrite map_map2, map2_map_fst. apply map2_ext. intros u v. apply vmul_assoc_Num.
Qed.

Lemma broadcast_mul_scale a nd p E :
  broadcast_mul (scale_ndarray a nd) p E
  = (prod <- broadcast_mul nd p E ;; Ok (map (map (vmul (Num a))) prod)).
Proof.
  destruct nd as [v|l|b]; cbn [scale_ndarray broadcast_mul bind].
  - f_equal. rewrite map_map. apply map_ext. intros r. rewrite map_map.
    apply map_ext. intros t. apply vmul_assoc_Num.
  - rewrite length_map.
    destruct (length l =? p)%nat;
      [|destruct (p =? 1)%nat; [|destruct (length l =? 1)%nat]];
      cbn [bind]; try reflexivity; f_equal; rewrite map_map; apply map_ext; intros r.
    + apply map2_vmul_scale.
    + rewrite !map_map. apply map_ext. intros t. apply vmul_assoc_Num.
    + rewrite entry0_scale, map_map. apply map_ext. intros t. apply vmul_assoc_Num.
  - f_equal. rewrite map_map2, map2_map_fst. apply map2_ext.
    intros u v. apply map2_vmul_scale.
Qed.

Lemma predict_rows_scale a degree ev B :
  predict_rows degree ev (map (map (map (vmul (Num a)))) B)
  = (r <- predict_rows degree ev B ;; Ok (fst r, map (vmul (Num a)) (snd r))).
Proof.
  unfold predict_rows. rewrite squeeze_scale, broadcast_mul_scale.
  destruct (broadcast_mul _ _ _) as [prod|]; cbn [bind fst snd]; [|reflexivity].
  do 2 f_equal. rewrite !map_map. apply map_ext. intros r. apply vsum_scale.
Qed.

Lemma loess_yhat_scale a x y eval_x degree span :
  loess_yhat x (map (Qcmult a) y) eval_x degree span
  = (r <- loess_yhat x y eval_x degree span ;; Ok (fst r, map (vmul (Num a)) (snd r))).
Proof.
  destruct (Nat.le_gt_cases (length x) (length y)) as [Hle|Hgt].
  - rewrite !loess_yhat_sorted by (try rewrite length_map; exact Hle). cbv zeta.
    destruct (_ =? 0)%nat; [reflexivity|].
    unfold sorted_y. rewrite gather_scale.
    rewrite (mapM_ext _ _ _ (fun e _ => row_fit_scale a degree _ _ _ e)), mapM_post.
    destruct (mapM _ _) as [B|]; cbn [bind]; [|reflexivity].
    apply predict_rows_scale.
  - unfold loess_yhat. rewrite !sort_by_x_short by (try rewrite length_map; exact Hgt).
    reflexivity.
Qed.

Lemma combine_map_snd {A B C : Type} (g : B -> C) (l : list A) (l' : list B) :
  combine l (map g l') = map (fun p => (fst p, g (snd p))) (combine l l').
Proof. revert l'. induction l; destruct l'; simpl; congruence. Qed.

(** X11. In exact arithmetic the predictions are homogeneous in [y]:
    multiplying every y-value by a constant multiplies every prediction by
    it (NaN stays NaN), leaves the x column alone, and changes neither
    whether the call fails nor the error. *)
Theorem scaling_y_scales_predictions (a : Qc) (x y : list Qc)
        (eval_x : option (list Qc)) (degree : nat) (span : Qc) :
  loess x (map (Qcmult a) y) eval_x degree span
  = match loess x y eval_x degree span with
    | Ok out => Ok (scale_output a out)
    | Raise e => Raise e
    end.
Proof.
  unfold loess. rewrite loess_yhat_scale.
  destruct (loess_yhat x y eval_x degree span) as [[E yhat]|]; cbn [bind fst snd];
    [|reflexivity].
  destruct eval_x; [reflexivity|].
  destruct (column1 _ _); cbn [bind scale_output]; [|reflexivity].
  now rewrite combine_map_snd.
Qed.

(** ** Exactly polynomial data *)








(** ** The kernel decreases with the distance (lines 49-50) *)

Lemma Q_cube_le (a b : Q) : (a <= b -> a * (a * (a * 1)) <= b * (b * (b * 1)))%Q.
Proof.
  intros H.
  assert (H1 : (0 <= (b - a) * ((a + b * (1#2)) * (a + b * (1#2)) + (3#4) * (b * b)))%Q).
  { apply Qmult_le_0_compat; [lra | nra]. }
  nra.
Qed.

Lemma Q_cube_pos (a : Q) : (0 < a -> 0 < a * (a * (a * 1)))%Q.
Proof. intros H. assert (0 < a * a)%Q by nra. nra. Qed.

Lemma this_mult (x y : Qc) : (this (x * y) == this x * this y)%Q.
Proof. apply Qred_correct. Qed.

Lemma this_inv (x : Qc) : (this (/ x) == / this x)%Q.
Proof. apply Qred_correct. Qed.

Lemma Qc_cube_le (a b : Qc) : a <= b -> a ^ 3 <= b ^ 3.
Proof.
  intros H. change (a * (a * (a * 1)) <= b * (b * (b * 1))).
  unfold Qcle in *. rewrite !this_mult. now apply Q_cube_le.
Qed.

Lemma Qc_cube_pos (a : Qc) : 0 < a -> 0 < a ^ 3.
Proof.
  intros H. change (0 < a * (a * (a * 1))).
  unfold Qclt in *. rewrite !this_mult. now apply Q_cube_pos.
Qed.

Lemma Qc_cube_lt1 (a : Qc) : 0 <= a -> a < 1 -> a ^ 3 < 1.
Proof.
  intros H0 H1. change (a * (a * (a * 1)) < 1).
  unfold Qclt, Qcle in *. rewrite !this_mult.
  change (this 1) with 1%Q in *. change (this 0) with 0%Q in *.
  assert (this a * this a <= this a)%Q by nra.
  assert (0 <= this a * this a)%Q by nra. nra.
Qed.

Lemma Qc_div_le (u v m : Qc) : 0 < m -> u <= v -> u / m <= v / m.
Proof.
  intros Hm H. unfold Qcdiv. apply Qcmult_le_compat_r; auto.
  unfold Qcle, Qclt in *. rewrite this_inv.
  apply Qlt_le_weak, Qinv_lt_0_compat. exact Hm.
Qed.

Lemma Qc_div_lt1 (u m : Qc) : 0 < m -> u < m -> u / m < 1.
Proof.
  intros Hm H. apply (Qcmult_lt_compat_r _ _ (/ m)) in H.
  - rewrite Qcmult_inv_r in H; auto. intro E. rewrite E in Hm. discriminate.
  - unfold Qclt in *. rewrite this_inv. now apply Qinv_lt_0_compat.
Qed.

Lemma Qc_div_nonneg (u m : Qc) : 0 < m -> 0 <= u -> 0 <= u / m.
Proof.
  intros Hm H. replace 0 with (0 / m) by (unfold Qcdiv; ring). now apply Qc_div_le.
Qed.

Ltac qc_order :=
  repeat match goal with
         | H : Qcleb _ _ = true |- _ => apply Qcleb_le in H
         | H : Qcleb _ _ = false |- _ => apply Qcleb_gt in H
         end;
  unfold Qcle, Qclt in *;
  change (this 0) with 0%Q in *; change (this 1) with 1%Q in *; lra.

Lemma clipq_mono p q : p <= q -> clipq p <= clipq q.
Proof.
  intros H. unfold clipq.
  destruct (Qcleb p 0) eqn:Ep0, (Qcleb q 0) eqn:Eq0,
           (Qcleb 1 p) eqn:Ep1, (Qcleb 1 q) eqn:Eq1; qc_order.
Qed.

Lemma clipq_pos q : 0 < q -> 0 < clipq q.
Proof.
  intros H. unfold clipq.
  destruct (Qcleb q 0) eqn:E0, (Qcleb 1 q) eqn:E1; qc_order.
Qed.

Lemma tricubeq_mono u v : u <= v -> tricubeq v <= tricubeq u.
Proof.
  intros H. unfold tricubeq. apply clipq_mono, Qc_cube_le.
  unfold Qcminus. apply Qcplus_le_compat; [apply Qcle_refl|].
  apply Qcopp_le_compat. now apply Qc_cube_le.
Qed.

Lemma tricubeq_pos u : 0 <= u -> u < 1 -> 0 < tricubeq u.
Proof.
  intros H0 H1. unfold tricubeq. apply clipq_pos, Qc_cube_pos.
  pose proof (Qc_cube_lt1 u H0 H1) as H. revert H. generalize (u ^ 3). intros c H.
  unfold Qclt in *. unfold Qcminus, Qcplus, Qcopp.
  cbn [this Q2Qc]. rewrite !Qred_correct.
  change (this 0) with 0%Q. change (this 1) with 1%Q in *. lra.
Qed.

(** X13. Within a row of the kernel stage whose maximum distance is
    positive, a larger distance never gets a larger weight; a neighbour at
    distance 0 gets weight exactly 1, and every neighbour strictly inside
    the neighbourhood gets a strictly positive weight. *)
Theorem weights_decrease_with_distance (ncols : nat) (dists : list (list Qc))
        (weights : list (list val)) (j : nat) (row : list Qc) :
  kernel ncols dists = Ok weights ->
  nth_error dists j = Some row ->
  0 < Qcmaxl row ->
  exists ws : list Qc,
    nth_error weights j = Some (map Num ws)
    /\ (forall i i', (i < length row)%nat -> (i' < length row)%nat ->
                     nth i row 0 <= nth i' row 0 -> nth i' ws 0 <= nth i ws 0)
    /\ (forall i, (i < length row)%nat -> nth i row 0 = 0 -> nth i ws 0 = 1)
    /\ (forall i, (i < length row)%nat ->
                  0 <= nth i row 0 -> nth i row 0 < Qcmaxl row -> 0 < nth i ws 0).
Proof.
  intros Hk Hrow Hmax. apply kernel_inv in Hk. subst weights.
  assert (Hz : Qcmaxl row <> 0).
  { intro E. rewrite E in Hmax. discriminate. }
  exists (map (fun v => tricubeq (v / Qcmaxl row)) row).
  assert (Hnth : forall i, (i < length row)%nat ->
            nth i (map (fun v => tricubeq (v / Qcmaxl row)) row) 0
            = tricubeq (nth i row 0 / Qcmaxl row)).
  { intros i Hi.
    rewrite (nth_indep _ 0 (tricubeq (0 / Qcmaxl row))) by now rewrite length_map.
    apply (map_nth (fun v => tricubeq (v / Qcmaxl row))). }
  split; [|split; [|split]].
  - rewrite nth_error_map, Hrow. cbn [option_map]. f_equal.
    now apply row_weights_finite.
  - intros i i' Hi Hi' Hle. rewrite !Hnth by assumption.
    apply tricubeq_mono. now apply Qc_div_le.
  - intros i Hi H0. rewrite Hnth, H0 by assumption.
    replace (0 / Qcmaxl row) with 0 by (unfold Qcdiv; ring). apply tricubeq_0.
  - intros i Hi H0 Hlt. rewrite Hnth by assumption.
    apply tricubeq_pos; [now apply Qc_div_nonneg | now apply Qc_div_lt1].
Qed.

Lemma weights_decrease_with_distance_witness :
  exists ws : list Qc,
    nth_error [map Num [qz 1; qfrac 17576 19683; qfrac 6859 19683; qz 0]] 0 = Some (map Num ws)
    /\ (forall i i', (i < length (map qz [0;1;2;3]%Z))%nat ->
                     (i' < length (map qz [0;1;2;3]%Z))%nat ->
                     nth i (map qz [0;1;2;3]%Z) 0 <= nth i' (map qz [0;1;2;3]%Z) 0 ->
                     nth i' ws 0 <= nth i ws 0)
    /\ (forall i, (i < length (map qz [0;1;2;3]%Z))%nat ->
                  nth i (map qz [0;1;2;3]%Z) 0 = 0 -> nth i ws 0 = 1)
    /\ (forall i, (i < length (map qz [0;1;2;3]%Z))%nat ->
                  0 <= nth i (map qz [0;1;2;3]%Z) 0 ->
                  nth i (map qz [0;1;2;3]%Z) 0 < Qcmaxl (map qz [0;1;2;3]%Z) ->
                  0 < nth i ws 0).
Proof.
  apply (weights_decrease_with_distance 4 [map qz [0;1;2;3]%Z]).
  - vm_compute. reflexivity.
  - reflexivity.
  - reflexivity.
Defined.

(** ** Where NaN predictions come from *)






(** ** Neighbours all at the same positive distance *)



(** ** Degree 0: weighted averages, and their sum *)

Lemma qsum_ge_in l v : Forall (fun u => 0 <= u) l -> In v l -> v <= qsum l.
Proof.
  induction 1 as [|a t Ha Ht IH]; intros Hv; [contradiction|].
  cbn [qsum fold_right]. fold (qsum t). destruct Hv as [->|Hv].
  - rewrite <- (Qcplus_0_r v) at 1.
    apply Qcplus_le_compat; [apply Qcle_refl | now apply qsum_nonneg].
  - rewrite <- (Qcplus_0_l v).
    apply Qcplus_le_compat; [exact Ha | now apply IH].
Qed.

Lemma row_total_weight_pos k x e v :
  In v (row_sel k x e) -> v < Qcmaxl (row_sel k x e) ->
  Qcmaxl (row_sel k x e) <> 0
  /\ qsum (map (fun u => tricubeq (u / Qcmaxl (row_sel k x e))) (row_sel k x e)) <> 0.
Proof.
  intros Hv Hlt.
  assert (H0 : 0 <= v) by now apply (row_sel_nonneg k x e).
  assert (Hm : 0 < Qcmaxl (row_sel k x e)) by now apply (Qcle_lt_trans _ v).
  split.
  - intro E. rewrite E in Hm. discriminate.
  - apply not_eq_sym, Qclt_not_eq.
    apply (Qclt_le_trans _ (tricubeq (v / Qcmaxl (row_sel k x e)))).
    + apply tricubeq_pos; [now apply Qc_div_nonneg | now apply Qc_div_lt1].
    + apply qsum_ge_in.
      * rewrite Forall_map. apply Forall_forall. intros u _. apply clipq_bounds.
      * apply (in_map (fun u => tricubeq (u / Qcmaxl (row_sel k x e)))). exact Hv.
Qed.

Lemma weighted_average_finite wq ys :
  qsum wq <> 0 -> exists q, weighted_average (map Num wq) ys = Num q.
Proof.
  intros H. unfold weighted_average.
  rewrite (map2_Num Qcmult vmul) by reflexivity. rewrite !vsum_Num.
  cbn [vquot]. rewrite vdiv_nonzero by exact H. eauto.
Qed.

Lemma row_fit_degree0_finite k x y e v :
  In v (row_sel k x e) -> v < Qcmaxl (row_sel k x e) ->
  exists q,
    weighted_average (row_weights (row_sel k x e)) (gather y (row_inds k x e)) = Num q
    /\ row_fit 0 k x y e = Ok [[Num q]].
Proof.
  intros Hv Hlt. destruct (row_total_weight_pos k x e v Hv Hlt) as [Hz Hs].
  pose proof (row_fit_degree0_average k x y e Hz Hs) as Hfit.
  rewrite row_weights_finite in * by exact Hz.
  destruct (weighted_average_finite _ (gather y (row_inds k x e)) Hs) as [q Hq].
  exists q. split; [exact Hq|]. now rewrite Hfit, Hq.
Qed.

Lemma vmul_1_r w : vmul w (Num 1) = w.
Proof. destruct w; simpl; auto. f_equal. ring. Qed.




(** X17. Degree 0 with a number of evaluation points other than one does
    not return the weighted averages: [squeeze] leaves the coefficients with
    shape (m,) and line 67 broadcasts them across rows, so that every
    returned prediction is the same number, the sum over all evaluation
    points of their neighbourhoods' weighted averages. *)
Theorem degree0_batch_returns_sum (x y ev : list Qc) (span : Qc) :
  (length x <= length y)%nat ->
  (0 < slice_stop (ceil_span span (length x)) (length x))%nat ->
  length ev <> 1%nat ->
  (forall e, In e ev ->
     exists v, In v (row_sel (ceil_span span (length x)) (sorted_x x) e)
               /\ v < Qcmaxl (row_sel (ceil_span span (length x)) (sorted_x x) e)) ->
  loess x y (Some ev) 0 span
  = Ok (Values
          (map (fun _ =>
                  vsum (Num 0) vadd
                       (map (fun e =>
                               weighted_average
                                 (row_weights
                                    (row_sel (ceil_span span (length x)) (sorted_x x) e))
                                 (gather (sorted_y x y)
                                    (row_inds (ceil_span span (length x)) (sorted_x x) e)))
                            ev))
               ev)).
Proof.
  intros Hlen Hn Hm Hrows.
  unfold loess. rewrite loess_yhat_sorted by exact Hlen. cbv zeta.
  destruct (_ =? 0)%nat eqn:E; [apply Nat.eqb_eq in E; lia|].
  cbn [eval_points].
  rewrite (mapM_all_Ok _
             (fun e => [[weighted_average
                           (row_weights (row_sel (ceil_span span (length x)) (sorted_x x) e))
                           (gather (sorted_y x y)
                              (row_inds (ceil_span span (length x)) (sorted_x x) e))]])).
  - cbn [bind]. rewrite predict_rows_degree0_sum by (try rewrite length_map; auto).
    cbn [bind]. do 2 f_equal. apply map_ext. intros _.
    unfold coefficient_sum. rewrite map_map. f_equal.
    apply map_ext. intros e. cbn [hd entry0]. apply vmul_1_r.
  - intros e He. destruct (Hrows e He) as [v [Hv Hlt]].
    destruct (row_fit_degree0_finite _ _ (sorted_y x y) _ _ Hv Hlt) as [q [Hq Hfit]].
    now rewrite Hfit, Hq.
Qed.

Lemma degree0_batch_returns_sum_witness :
  loess bug_x bug_y (Some bug_eval) 0 (qfrac 3 4)
  = Ok (Values
          (map (fun _ =>
                  vsum (Num 0) vadd
                       (map (fun e =>
                               weighted_average
                                 (row_weights
                                    (row_sel (ceil_span (qfrac 3 4) (length bug_x))
                                             (sorted_x bug_x) e))
                                 (gather (sorted_y bug_x bug_y)
                                    (row_inds (ceil_span (qfrac 3 4) (length bug_x))
                                              (sorted_x bug_x) e)))
                            bug_eval))
               bug_eval)).
Proof.
  apply degree0_batch_returns_sum.
  - simpl. lia.
  - vm_compute. lia.
  - simpl. lia.
  - intros e [<-|[<-|[]]]; exists 0;
      (split; [vm_compute; left; apply Qc_is_canon; reflexivity | reflexivity]).
Defined.

(** ** The farthest neighbour never counts *)










(** ** The order of the observations (lines 36-38) *)

Lemma StronglySorted_unique {A : Type} (R : A -> A -> Prop) l l' :
  (forall a b, R a b -> R b a -> False) ->
  StronglySorted R l -> StronglySorted R l' -> Permutation l l' -> l = l'.
Proof.
  intros Hasym. revert l'. induction l as [|a t IH]; intros l' Hs Hs' Hp.
  - apply Permutation_nil in Hp. now subst.
  - destruct l' as [|a' t']; [apply Permutation_sym, Permutation_nil in Hp; discriminate|].
    apply StronglySorted_inv in Hs as [Ht Ha].
    apply StronglySorted_inv in Hs' as [Ht' Ha'].
    rewrite Forall_forall in Ha, Ha'.
    assert (E : a = a').
    { assert (Hin : In a (a' :: t')) by (apply (Permutation_in _ Hp); now left).
      assert (Hin' : In a' (a :: t))
        by (apply (Permutation_in _ (Permutation_sym Hp)); now left).
      destruct Hin as [E|Hin]; [now symmetry|].
      destruct Hin' as [E|Hin']; [exact E|].
      exfalso. exact (Hasym a a' (Ha _ Hin') (Ha' _ Hin)). }
    subst a'. f_equal. apply IH; auto. now apply Permutation_cons_inv in Hp.
Qed.

Lemma StronglySorted_map_inv {A B : Type} (R : B -> B -> Prop) (f : A -> B) l :
  StronglySorted R (map f l) -> StronglySorted (fun a b => R (f a) (f b)) l.
Proof.
  induction l as [|a t IH]; cbn [map]; intros H; [constructor|].
  apply StronglySorted_inv in H as [Ht Ha]. constructor; auto.
  now rewrite Forall_map in Ha.
Qed.

Lemma StronglySorted_strict l :
  StronglySorted Qcle l -> NoDup l -> StronglySorted Qclt l.
Proof.
  induction 1 as [|a t Ht IH Ha]; intros Hnd; [constructor|].
  inversion Hnd as [|? ? Hnotin Hnd']; subst. constructor; auto.
  rewrite Forall_forall in *. intros b Hb.
  destruct (Qcle_lt_or_eq _ _ (Ha b Hb)) as [Hlt|E]; [exact Hlt|].
  subst b. contradiction.
Qed.

(** The observations as pairs, after lines 36-38. *)
Lemma sorted_pairs x y :
  length x = length y ->
  combine (sorted_x x) (sorted_y x y)
  = map (fun i => nth i (combine x y) (0, 0)) (argsort x).
Proof.
  intros H. unfold sorted_x, sorted_y, gather.
  generalize (argsort x) as idx. induction idx as [|i idx IH]; cbn [map combine]; auto.
  now rewrite IH, combine_nth.
Qed.

Lemma sorted_pairs_perm x y :
  length x = length y ->
  Permutation (combine (sorted_x x) (sorted_y x y)) (combine x y).
Proof.
  intros H. rewrite sorted_pairs by exact H.
  eapply perm_trans; [apply Permutation_map, argsort_perm|].
  replace (length x) with (length (combine x y))
    by (rewrite length_combine, <- H; apply Nat.min_id).
  now rewrite map_nth_seq.
Qed.

Lemma map_fst_combine {A B : Type} (l : list A) (l' : list B) :
  length l = length l' -> map fst (combine l l') = l.
Proof.
  revert l'. induction l; destruct l'; simpl; intros H; try discriminate; auto.
  f_equal. apply IHl. now injection H.
Qed.

Lemma map_snd_combine {A B : Type} (l : list A) (l' : list B) :
  length l = length l' -> map snd (combine l l') = l'.
Proof.
  revert l'. induction l; destruct l'; simpl; intros H; try discriminate; auto.
  f_equal. apply IHl. now injection H.
Qed.

Lemma sorted_pairs_sorted x y :
  length x = length y -> NoDup x ->
  StronglySorted (fun p q => fst p < fst q) (combine (sorted_x x) (sorted_y x y)).
Proof.
  intros H Hnd. apply (StronglySorted_map_inv Qclt fst).
  rewrite map_fst_combine
    by (unfold sorted_x, sorted_y; now rewrite !gather_length).
  apply StronglySorted_strict; [apply gather_argsort_sorted|].
  apply (Permutation_NoDup (Permutation_sym (gather_argsort_perm x))). exact Hnd.
Qed.

Lemma sorted_data_order_free x y x' y' :
  Permutation (combine x y) (combine x' y') ->
  length x = length y -> length x' = length y' -> NoDup x ->
  sorted_x x = sorted_x x' /\ sorted_y x y = sorted_y x' y'.
Proof.
  intros Hp H H' Hnd.
  assert (Hnd' : NoDup x').
  { rewrite <- (map_fst_combine x' y' H').
    apply (Permutation_NoDup (Permutation_map fst Hp)).
    now rewrite map_fst_combine. }
  assert (E : combine (sorted_x x) (sorted_y x y) = combine (sorted_x x') (sorted_y x' y')).
  { apply (StronglySorted_unique (fun p q => fst p < fst q)).
    - intros a b Hab Hba. exact (Qclt_not_le _ _ Hab (Qclt_le_weak _ _ Hba)).
    - now apply sorted_pairs_sorted.
    - now apply sorted_pairs_sorted.
    - rewrite (sorted_pairs_perm x y H), Hp. symmetry. now apply sorted_pairs_perm. }
  assert (Hl : forall a b, length a = length b ->
                           length (sorted_x a) = length (sorted_y a b)).
  { intros a b _. unfold sorted_x, sorted_y. now rewrite !gather_length. }
  split.
  - rewrite <- (map_fst_combine (sorted_x x) (sorted_y x y)) by auto.
    rewrite E. apply map_fst_combine. auto.
  - rewrite <- (map_snd_combine (sorted_x x) (sorted_y x y)) by auto.
    rewrite E. apply map_snd_combine. auto.
Qed.

(** X19. With pairwise distinct x-values the result does not depend on the
    order in which the observations are given: two data sets holding the
    same (x, y) pairs in different orders give the same result, errors
    included. *)
Theorem observation_order_irrelevant (x y x' y' : list Qc) (eval_x : option (list Qc))
        (degree : nat) (span : Qc) :
  Permutation (combine x y) (combine x' y') ->
  length x = length y -> length x' = length y' -> NoDup x ->
  loess x y eval_x degree span = loess x' y' eval_x degree span.
Proof.
  intros Hp H H' Hnd.
  destruct (sorted_data_order_free x y x' y' Hp H H' Hnd) as [Ex Ey].
  assert (Hl : length x = length x').
  { apply Permutation_length in Hp. rewrite !length_combine in Hp. lia. }
  unfold loess. rewrite !loess_yhat_sorted by lia. cbv zeta.
  unfold eval_points. now rewrite Ex, Ey, Hl.
Qed.

Lemma observation_order_irrelevant_witness :
  loess (map qz [2;0;1]%Z) (map qz [5;7;9]%Z) None 1 1
  = loess (map qz [0;1;2]%Z) (map qz [7;9;5]%Z) None 1 1.
Proof.
  apply observation_order_irrelevant.
  - cbn [map combine]. apply (perm_trans (perm_swap _ _ _)). apply perm_skip, perm_swap.
  - reflexivity.
  - reflexivity.
  - cbn [map]. repeat constructor; cbn [In]; intuition discriminate.
Defined.

(** ** Evaluating at an observed point (lines 44-50) *)

(** X20. At an evaluation point that is one of the observed x-values (every
    point, when [eval_x] is absent) the first selected neighbour is at
    distance 0, and, unless all selected neighbours coincide with the
    point, it carries the full weight 1. *)
Theorem observed_point_full_weight (k : Z) (x : list Qc) (e : Qc) :
  In e x ->
  (0 < slice_stop k (length x))%nat ->
  exists rest,
    row_sel k x e = 0 :: rest
    /\ (Qcmaxl (row_sel k x e) <> 0 ->
        exists wrest, row_weights (row_sel k x e) = Num 1 :: wrest).
Proof.
  intros He Hn. destruct (row_sel_head_zero k x e He Hn) as [rest Hr].
  exists rest. split; [exact Hr|]. intros Hz.
  rewrite row_weights_finite by exact Hz.
  set (m := Qcmaxl (row_sel k x e)). rewrite Hr. cbn [map].
  replace (0 / m) with 0 by (unfold Qcdiv; ring).
  rewrite tricubeq_0. eauto.
Qed.

Lemma observed_point_full_weight_witness :
  exists rest,
    row_sel 3 digits (qz 4) = 0 :: rest
    /\ (Qcmaxl (row_sel 3 digits (qz 4)) <> 0 ->
        exists wrest, row_weights (row_sel 3 digits (qz 4)) = Num 1 :: wrest).
Proof.
  apply observed_point_full_weight.
  - simpl. auto 10.
  - vm_compute. lia.
Defined.

(** ** The predictions are additive in [y] *)

Lemma nth_map2_plus y1 y2 i :
  length y1 = length y2 ->
  nth i (map2 Qcplus y1 y2) 0 = nth i y1 0 + nth i y2 0.
Proof.
  revert y2 i. induction y1 as [|a y1 IH]; intros [|b y2] [|i] H;
    try discriminate; cbn [map2 nth]; try ring.
  apply IH. now injection H.
Qed.

Lemma gather_add y1 y2 idx :
  length y1 = length y2 ->
  gather (map2 Qcplus y1 y2) idx = map2 Qcplus (gather y1 idx) (gather y2 idx).
Proof.
  intros H. unfold gather. rewrite map2_map_map. apply map_ext.
  intros i. now apply nth_map2_plus.
Qed.

Lemma entry0_add c1 c2 : entry0 (map2 vadd c1 c2) = vadd (entry0 c1) (entry0 c2).
Proof.
  destruct c1 as [|a c1], c2 as [|b c2]; cbn [map2 entry0 hd]; auto.
  now rewrite vadd_NaN_r.
Qed.

Lemma vecmat_add_col r l1 l2 :
  length l1 = length l2 ->
  vecmat (Num 0) vadd vmul 1 r (map (fun v => [Num v]) (map2 Qcplus l1 l2))
  = map2 vadd (vecmat (Num 0) vadd vmul 1 r (map (fun v => [Num v]) l1))
              (vecmat (Num 0) vadd vmul 1 r (map (fun v => [Num v]) l2)).
Proof.
  assert (H0 : repeat (Num 0) 1 = map2 vadd (repeat (Num 0) 1) (repeat (Num 0) 1)).
  { cbn [repeat map2 vadd]. now replace (0 + 0) with 0 by ring. }
  revert r l2. induction l1 as [|a l1 IH]; intros r [|b l2] H; try discriminate.
  - cbn [map map2]. rewrite !vecmat_nil_r. exact H0.
  - destruct r as [|c r]; [rewrite !vecmat_nil_l; exact H0|].
    cbn [map map2]. rewrite !vecmat_cons, IH by now injection H.
    destruct (vecmat (Num 0) vadd vmul 1 r (map (fun v => [Num v]) l1)) as [|u1 V1];
      [reflexivity|].
    destruct (vecmat (Num 0) vadd vmul 1 r (map (fun v => [Num v]) l2)) as [|u2 V2];
      [reflexivity|].
    cbn. f_equal. destruct c, u1, u2; cbn [vmul vadd]; auto. f_equal. ring.
Qed.

Lemma row_fit_add degree k x y1 y2 e b1 b2 :
  length y1 = length y2 ->
  row_fit degree k x y1 e = Ok b1 ->
  row_fit degree k x y2 e = Ok b2 ->
  row_fit degree k x (map2 Qcplus y1 y2) e = Ok (map2 (map2 vadd) b1 b2).
Proof.
  intros H. unfold row_fit, row_betas.
  destruct (inv _) as [iA|]; cbn [bind]; [|discriminate].
  intros H1 H2. inversion H1; inversion H2. f_equal.
  rewrite gather_add by exact H. unfold vmatmul, matmul.
  rewrite map2_map_map. apply map_ext. intros r.
  apply vecmat_add_col. now rewrite !gather_length.
Qed.

Lemma mapM_map2 {A B : Type} (f1 f2 f : A -> result B) (g : B -> B -> B) l r1 r2 :
  (forall a b1 b2, f1 a = Ok b1 -> f2 a = Ok b2 -> f a = Ok (g b1 b2)) ->
  mapM f1 l = Ok r1 -> mapM f2 l = Ok r2 -> mapM f l = Ok (map2 g r1 r2).
Proof.
  intros H. revert r1 r2. induction l as [|a t IH]; cbn [mapM]; intros r1 r2 H1 H2.
  - inversion H1; inversion H2. reflexivity.
  - destruct (f1 a) as [b1|] eqn:E1; [|discriminate].
    destruct (f2 a) as [b2|] eqn:E2; [|discriminate].
    cbn [bind] in *.
    destruct (mapM f1 t) as [t1|]; [|discriminate].
    destruct (mapM f2 t) as [t2|]; [|discriminate].
    cbn [bind] in *. inversion H1; inversion H2.
    rewrite (H a b1 b2 E1 E2), (IH t1 t2 eq_refl eq_refl). reflexivity.
Qed.

Lemma vsum_map2_add u1 u2 (P : list val) :
  length u1 = length u2 ->
  vsum (Num 0) vadd (map2 vmul (map2 vadd u1 u2) P)
  = vadd (vsum (Num 0) vadd (map2 vmul u1 P)) (vsum (Num 0) vadd (map2 vmul u2 P)).
Proof.
  unfold vsum. revert u2 P. induction u1 as [|a u1 IH]; intros [|b u2] [|p P] H;
    try discriminate; cbn [map2 fold_right];
    try (cbn [vadd]; f_equal; ring).
  rewrite IH by now injection H.
  destruct a, b, p, (fold_right vadd (Num 0) (map2 vmul u1 P)),
    (fold_right vadd (Num 0) (map2 vmul u2 P)); cbn [vmul vadd]; auto.
  f_equal. ring.
Qed.

Lemma row_dot_add degree b1 b2 e :
  length b1 = length b2 ->
  row_dot degree (map2 (map2 vadd) b1 b2) e
  = vadd (row_dot degree b1 e) (row_dot degree b2 e).
Proof.
  intros H. unfold row_dot.
  rewrite (map_map2 entry0 (map2 vadd)).
  rewrite (map2_ext _ (fun c1 c2 => vadd (entry0 c1) (entry0 c2)))
    by (intros; apply entry0_add).
  rewrite <- (map2_map_fst (fun a c2 => vadd a (entry0 c2)) entry0).
  rewrite <- (map2_map_snd vadd entry0).
  apply vsum_map2_add. now rewrite !length_map.
Qed.

Lemma coefficient_sum_add B1 B2 :
  length B1 = length B2 ->
  coefficient_sum (map2 (map2 (map2 vadd)) B1 B2)
  = vadd (coefficient_sum B1) (coefficient_sum B2).
Proof.
  unfold coefficient_sum, vsum. revert B2.
  induction B1 as [|m1 B1 IH]; intros [|m2 B2] H; try discriminate;
    cbn [map2 map fold_right].
  - cbn [vadd]. now replace (0 + 0) with 0 by ring.
  - rewrite IH by now injection H.
    assert (E : entry0 (hd [] (map2 (map2 vadd) m1 m2))
                = vadd (entry0 (hd [] m1)) (entry0 (hd [] m2))).
    { destruct m1 as [|c1 m1], m2 as [|c2 m2]; cbn [map2 hd entry0]; auto.
      - now rewrite vadd_NaN_r.
      - apply entry0_add. }
    rewrite E.
    destruct (entry0 (hd [] m1)), (entry0 (hd [] m2)),
      (fold_right vadd (Num 0)
         (map (fun mat => vmul (entry0 (hd [] mat)) (Num 1)) B1)),
      (fold_right vadd (Num 0)
         (map (fun mat => vmul (entry0 (hd [] mat)) (Num 1)) B2));
      cbn [vmul vadd]; auto.
    f_equal. ring.
Qed.

Lemma entry0_hd_add m1 m2 :
  entry0 (hd [] (map2 (map2 vadd) m1 m2))
  = vadd (entry0 (hd [] m1)) (entry0 (hd [] m2)).
Proof.
  destruct m1 as [|c1 m1], m2 as [|c2 m2]; cbn [map2 hd entry0]; auto.
  - now rewrite vadd_NaN_r.
  - apply entry0_add.
Qed.

Lemma predict_rows_single0 e b :
  predict_rows 0 [e] [b] = Ok ([powers 0 e], [entry0 (hd [] b)]).
Proof.
  unfold predict_rows, squeeze. cbn [length Nat.add Nat.eqb hd].
  generalize (entry0 (hd [] b)) as w. intros w.
  cbn [broadcast_mul bind lift map].
  cbv [powers vsum Nat.add seq map fold_right].
  change (e ^ 0) with 1.
  assert (Hw : vadd (vmul w (Num 1)) (Num 0) = w)
    by (destruct w; cbn [vmul vadd]; [f_equal; ring | reflexivity]).
  now rewrite Hw.
Qed.

Lemma map2_row_dot_add degree B1 B2 ev :
  length B1 = length B2 ->
  (forall b, In b B1 -> length b = (degree + 1)%nat) ->
  (forall b, In b B2 -> length b = (degree + 1)%nat) ->
  map2 (row_dot degree) (map2 (map2 (map2 vadd)) B1 B2) ev
  = map2 vadd (map2 (row_dot degree) B1 ev) (map2 (row_dot degree) B2 ev).
Proof.
  revert B2 ev. induction B1 as [|b1 B1 IH]; intros [|b2 B2] [|e ev] H H1 H2;
    try discriminate; try reflexivity.
  cbn [map2]. f_equal.
  - apply row_dot_add. rewrite (H1 b1), (H2 b2); auto; now left.
  - apply IH; [now injection H | |]; intros b Hb; [apply H1 | apply H2]; now right.
Qed.

Lemma predict_rows_add degree ev B1 B2 E1 y1 E2 y2 :
  length B1 = length ev -> length B2 = length ev ->
  (forall b, In b B1 -> length b = (degree + 1)%nat) ->
  (forall b, In b B2 -> length b = (degree + 1)%nat) ->
  predict_rows degree ev B1 = Ok (E1, y1) ->
  predict_rows degree ev B2 = Ok (E2, y2) ->
  predict_rows degree ev (map2 (map2 (map2 vadd)) B1 B2) = Ok (E1, map2 vadd y1 y2).
Proof.
  intros L1 L2 R1 R2 P1 P2.
  assert (L : length (map2 (map2 (map2 vadd)) B1 B2) = length ev)
    by (rewrite map2_length, L1, L2; apply Nat.min_id).
  destruct degree as [|d].
  - destruct (Nat.eq_dec (length ev) 1) as [Em|Em].
    + destruct ev as [|e [|e' ev]]; try discriminate.
      destruct B1 as [|b1 [|b1' B1]]; try discriminate.
      destruct B2 as [|b2 [|b2' B2]]; try discriminate.
      cbn [map2]. rewrite predict_rows_single0 in *.
      inversion P1; inversion P2. cbn [map2]. now rewrite entry0_hd_add.
    + rewrite predict_rows_degree0_sum in * by assumption.
      inversion P1; inversion P2.
      rewrite coefficient_sum_add by now rewrite L1, L2.
      now rewrite map2_map_map.
  - rewrite predict_rows_degree_pos in P1, P2 by (auto; lia).
    rewrite predict_rows_degree_pos; [| lia | exact L |].
    + inversion P1; inversion P2.
      rewrite map2_row_dot_add; auto. now rewrite L1, L2.
    + intros b Hb. destruct (In_nth _ b [] Hb) as [i [Hi Hnth]].
      rewrite L in Hi.
      rewrite (nth_map2 _ _ _ _ [] []) in Hnth by lia.
      subst b. rewrite map2_length.
      rewrite (R1 (nth i B1 [])), (R2 (nth i B2 []));
        [apply Nat.min_id | apply nth_In; lia | apply nth_In; lia].
Qed.

Lemma combine_map2_snd {A B : Type} (g : B -> B -> B) (l : list A) (l1 l2 : list B) :
  combine l (map2 g l1 l2)
  = map2 (fun p q => (fst p, g (snd p) (snd q))) (combine l l1) (combine l l2).
Proof.
  revert l1 l2. induction l as [|a l IH]; intros [|b1 l1] [|b2 l2];
    cbn [combine map2]; try reflexivity.
  now rewrite IH.
Qed.

(** X21. In exact arithmetic the predictions are additive in [y]: if the
    calls on [y1] and on [y2] (of equal length) return, the call on their
    entry-wise sum returns the entry-wise sum of the two results.  With
    the homogeneity above, loess is a linear smoother. *)
Theorem predictions_additive_in_y (x y1 y2 : list Qc) (eval_x : option (list Qc))
        (degree : nat) (span : Qc) (o1 o2 : output) :
  length y1 = length y2 ->
  loess x y1 eval_x degree span = Ok o1 ->
  loess x y2 eval_x degree span = Ok o2 ->
  loess x (map2 Qcplus y1 y2) eval_x degree span = Ok (add_output o1 o2).
Proof.
  intros Hy H1 H2.
  destruct (Nat.le_gt_cases (length x) (length y1)) as [Hle|Hgt].
  2:{ unfold loess, loess_yhat in H1. rewrite sort_by_x_short in H1 by exact Hgt.
      discriminate. }
  unfold loess in *.
  rewrite loess_yhat_sorted in H1, H2 by lia.
  rewrite loess_yhat_sorted by (rewrite map2_length; lia).
  cbv zeta in *. destruct (_ =? 0)%nat; [discriminate|].
  unfold sorted_y in *. rewrite gather_add by exact Hy.
  destruct (mapM _ _) as [B1|] eqn:EB1 in H1; [|discriminate].
  destruct (mapM _ _) as [B2|] eqn:EB2 in H2; [|discriminate].
  assert (EB : mapM (row_fit degree (ceil_span span (length x)) (sorted_x x)
                       (map2 Qcplus (gather y1 (argsort x)) (gather y2 (argsort x))))
                    (eval_points x eval_x)
               = Ok (map2 (map2 (map2 vadd)) B1 B2)).
  { eapply mapM_map2; [|exact EB1|exact EB2].
    intros e b1 b2. apply row_fit_add. now rewrite !gather_length. }
  rewrite EB. cbn [bind] in *.
  destruct (predict_rows _ _ B1) as [[E1 yh1]|] eqn:P1; [|discriminate].
  destruct (predict_rows _ _ B2) as [[E2 yh2]|] eqn:P2; [|discriminate].
  assert (L1 := mapM_length _ _ _ EB1). assert (L2 := mapM_length _ _ _ EB2).
  assert (HE : E2 = E1).
  { apply predict_rows_length in P1 as [-> _]; auto.
    apply predict_rows_length in P2 as [-> _]; auto. }
  subst E2.
  rewrite (predict_rows_add _ _ _ _ _ _ _ _ L1 L2
             (fun b => row_fit_rows _ _ _ _ _ _ b EB1)
             (fun b => row_fit_rows _ _ _ _ _ _ b EB2) P1 P2).
  cbn [bind] in *. destruct eval_x as [ev|].
  - inversion H1; inversion H2. reflexivity.
  - destruct (column1 _ _) as [xs|]; [|discriminate]. cbn [bind] in *.
    inversion H1; inversion H2. cbn [add_output].
    now rewrite combine_map2_snd.
Qed.

Lemma predictions_additive_in_y_witness :
  loess digits (map2 Qcplus digits (map qz [0;1;4;9;16;25;36;49;64;81]%Z))
        (Some [qfrac 9 2; qz 4]) 2 (qfrac 3 4)
  = Ok (add_output (Values [Num (qfrac 9 2); Num (qz 4)])
                   (Values [Num (qfrac 81 4); Num (qz 16)])).
Proof.
  apply predictions_additive_in_y.
  - reflexivity.
  - apply loess_by_eval. vm_compute. reflexivity.
  - apply loess_by_eval. vm_compute. reflexivity.
Defined.

(** ** When a degree-0 call returns *)




